(** * MFM parser: the parser-combinator engine and three syntax rules

    A shallow embedding of the TypeScript sources:

    - the Parsimmon-like stateful combinators ([Parser], [str], [regexp],
      [seq], [alt], [many], [sep], [option], [notMatch], [lineBegin],
      [lineEnd], [lazy]) in module [Combinators];
    - the hashtag matcher in module [Hashtag];
    - the link rule in module [Link].

    JavaScript strings are sequences of UTF-16 code units, JavaScript
    numbers used as positions and counts are integers ([Z]); NaN and
    fractional numbers are outside the model. *)

From Stdlib Require Import ZArith NArith Bool Lia String Ascii List.
Import ListNotations.
Local Open Scope Z_scope.

(** ** JavaScript strings *)

Module JsString.

(** A UTF-16 code unit. *)
Abbreviation code_unit := N (only parsing).

Definition jsstring := list code_unit.

(** String literals of the sources, written in ASCII. *)
Definition js (s : string) : jsstring :=
  map N_of_ascii (list_ascii_of_string s).

(** [s.length] *)
Definition jslength (s : jsstring) : Z := Z.of_nat (length s).

(** [a === b] on strings *)
Fixpoint jseqb (a b : jsstring) : bool :=
  match a, b with
  | [], [] => true
  | x :: a', y :: b' => N.eqb x y && jseqb a' b'
  | _, _ => false
  end.

(** The code units of [s] from offset [from] (inclusive) to offset [to]
    (exclusive), both already clamped to [0 .. s.length]. *)
Definition substring (s : jsstring) (from to : Z) : jsstring :=
  firstn (Z.to_nat (to - from)) (skipn (Z.to_nat from) s).

(** [s.substr(start, length)]: a negative [start] counts from the end. *)
Definition substr (s : jsstring) (start len : Z) : jsstring :=
  let size := jslength s in
  let intStart :=
    if start <? 0 then Z.max (size + start) 0 else Z.min start size in
  let intLength := Z.min (Z.max len 0) size in
  let intEnd := Z.min (intStart + intLength) size in
  substring s intStart intEnd.

(** [s.slice(start, end)]: negative arguments count from the end. *)
Definition slice (s : jsstring) (start end_ : Z) : jsstring :=
  let len := jslength s in
  let from := if start <? 0 then Z.max (len + start) 0 else Z.min start len in
  let to := if end_ <? 0 then Z.max (len + end_) 0 else Z.min end_ len in
  if to <=? from then [] else substring s from to.

(** [s.slice(start)] *)
Definition slice_from (s : jsstring) (start : Z) : jsstring :=
  slice s start (jslength s).

(** [s.charAt(pos)]: the empty string outside the string. *)
Definition charAt (s : jsstring) (pos : Z) : jsstring :=
  if (0 <=? pos) && (pos <? jslength s)
  then match nth_error s (Z.to_nat pos) with
       | Some c => [c]
       | None => []
       end
  else [].

(** [s.charCodeAt(pos)]: [None] stands for NaN. *)
Definition charCodeAt (s : jsstring) (pos : Z) : option code_unit :=
  if (0 <=? pos) && (pos <? jslength s)
  then nth_error s (Z.to_nat pos)
  else None.

(** [s] occurs in [input] at the offset [index] (a position of the input,
    counted from 0). *)
Fixpoint is_prefix (s l : jsstring) : bool :=
  match s, l with
  | [], _ => true
  | x :: s', y :: l' => N.eqb x y && is_prefix s' l'
  | _ :: _, [] => false
  end.

Definition starts_with_at (input : jsstring) (index : nat) (s : jsstring) : bool :=
  (index <=? length input)%nat && is_prefix s (skipn index input).

End JsString.
Import JsString.

(** ** The combinators *)

Module Combinators.

(** Values produced by parsers: the JavaScript values the engine builds
    (strings, [null], arrays) and those a grammar may add. *)
#[warnings="-register-all"]
Inductive Value : Type :=
| VUndefined
| VNull
| VNum (z : Z)
| VStr (s : jsstring)
| VArr (items : list Value)
| VObj (fields : list (jsstring * Value)).

(** [Result<T> = Success<T> | Failure]: a failure carries nothing. *)
Inductive Result : Type :=
| Success (value : Value) (index : Z)
| Failure.

(** [success(index, value)] and [failure()] *)
Definition success (index : Z) (value : Value) : Result := Success value index.
Definition failure : Result := Failure.

Definition is_success (r : Result) : bool :=
  match r with Success _ _ => true | Failure => false end.

(** A state [S extends StateBase]: the optional [trace] flag and the
    fields [U] a grammar adds. *)
Record State (U : Type) : Type := mkState {
  trace : option bool;
  user : U
}.
Arguments mkState {U}.
Arguments trace {U}.
Arguments user {U}.

Definition set_trace {U} (b : option bool) (st : State U) : State U :=
  mkState b (user st).

(** Truthiness of [state.trace]. *)
Definition truthy (b : option bool) : bool :=
  match b with Some true => true | _ => false end.

(** The lines written by [console.log] when tracing: the position (or the
    range [pos:next] of a match), the word [enter], [match] or [fail], and
    the name of the parser. *)
Inductive TraceLine : Type :=
| TraceEnter (pos : Z) (name : jsstring)
| TraceMatch (pos next : Z) (name : jsstring)
| TraceFail (pos : Z) (name : jsstring).

(** A call either returns a value, having written some lines, or does not
    return within the fuel it was given ([None]). *)
Definition Run (A : Type) : Type := option (list TraceLine * A).

Definition ret {A} (a : A) : Run A := Some ([], a).

Definition bind {A B} (m : Run A) (k : A -> Run B) : Run B :=
  match m with
  | None => None
  | Some (l, a) =>
      match k a with
      | None => None
      | Some (l', b) => Some (l ++ l', b)
      end
  end.

Definition log (line : TraceLine) : Run unit := Some ([line], tt).

(** What a call returned, without the lines it wrote. *)
Definition outcome {A} (m : Run A) : option A :=
  match m with
  | None => None
  | Some (_, a) => Some a
  end.

Declare Scope run_scope.
Delimit Scope run_scope with run.
Notation "x <- m ;; k" := (bind m (fun x => k))
  (at level 61, m at next level, right associativity) : run_scope.
Notation "m ;;; k" := (bind m (fun _ => k))
  (at level 61, right associativity) : run_scope.
Local Open Scope run_scope.

Section WithState.
Context {U : Type}.

(** [ParserHandler<T, S>]; the first argument bounds the iterations of
    every loop the call runs. *)
Definition ParserHandler : Type :=
  nat -> jsstring -> Z -> State U -> Run Result.

(** A [Parser] object: its [name] and the handler given to the
    constructor. *)
Record Parser : Type := mkParser {
  name : option jsstring;
  given : ParserHandler
}.

(** [new Parser(handler, name)] *)
Definition new_Parser (h : ParserHandler) (n : option jsstring) : Parser :=
  mkParser n h.

(** [parser.name = key] *)
Definition set_name (n : jsstring) (p : Parser) : Parser :=
  mkParser (Some n) (given p).

(** [this.handler]: the wrapper installed by the constructor. *)
Definition handler (p : Parser) : ParserHandler :=
  fun fuel input index state =>
    match truthy (trace state), name p with
    | true, Some n =>
        log (TraceEnter index n) ;;;
        result <- given p fuel input index state ;;
        match result with
        | Success _ next => log (TraceMatch index next n)
        | Failure => log (TraceFail index n)
        end ;;;
        ret result
    | _, _ => given p fuel input index state
    end.

(** [map(fn)] *)
Definition map (fn : Value -> Value) (this : Parser) : Parser :=
  new_Parser (fun fuel input index state =>
    result <- handler this fuel input index state ;;
    match result with
    | Failure => ret result
    | Success value next => ret (success next (fn value))
    end) None.

(** [text()] *)
Definition text (this : Parser) : Parser :=
  new_Parser (fun fuel input index state =>
    result <- handler this fuel input index state ;;
    match result with
    | Failure => ret result
    | Success _ next => ret (success next (VStr (slice input index next)))
    end) None.

(** The [while] loop of [many]: [n] bounds its iterations. *)
Fixpoint many_loop (n : nat) (this : Parser) (fuel : nat) (input : jsstring)
    (latestIndex : Z) (accum : list Value) (state : State U)
    : Run (Z * list Value) :=
  if latestIndex <? jslength input then
    match n with
    | O => None
    | S n' =>
        result <- handler this fuel input latestIndex state ;;
        match result with
        | Failure => ret (latestIndex, accum)
        | Success value next =>
            many_loop n' this fuel input next (accum ++ [value]) state
        end
    end
  else ret (latestIndex, accum).

(** [many(min)] *)
Definition many (min : Z) (this : Parser) : Parser :=
  new_Parser (fun fuel input index state =>
    r <- many_loop fuel this fuel input index [] state ;;
    let '(latestIndex, accum) := r in
    if Z.of_nat (length accum) <? min
    then ret failure
    else ret (success latestIndex (VArr accum))) None.

(** The [for] loop of [seq]. *)
Fixpoint seq_loop (parsers : list Parser) (fuel : nat) (input : jsstring)
    (latestIndex : Z) (accum : list Value) (state : State U) : Run Result :=
  match parsers with
  | [] => ret (success latestIndex (VArr accum))
  | p :: rest =>
      result <- handler p fuel input latestIndex state ;;
      match result with
      | Failure => ret result
      | Success value next =>
          seq_loop rest fuel input next (accum ++ [value]) state
      end
  end.

(** [seq(...parsers)] *)
Definition seq (parsers : list Parser) : Parser :=
  new_Parser (fun fuel input index state =>
    seq_loop parsers fuel input index [] state) None.

(** The [for] loop of [alt]. *)
Fixpoint alt_loop (parsers : list Parser) (fuel : nat) (input : jsstring)
    (index : Z) (state : State U) : Run Result :=
  match parsers with
  | [] => ret failure
  | parser :: rest =>
      result <- handler parser fuel input index state ;;
      match result with
      | Success _ _ => ret result
      | Failure => alt_loop rest fuel input index state
      end
  end.

(** [alt(parsers)] *)
Definition alt (parsers : list Parser) : Parser :=
  new_Parser (fun fuel input index state =>
    alt_loop parsers fuel input index state) None.

(** [succeeded(value)] *)
Definition succeeded (value : Value) : Parser :=
  new_Parser (fun _ _ index _ => ret (success index value)) None.

(** [notMatch(parser)] *)
Definition notMatch (parser : Parser) : Parser :=
  new_Parser (fun fuel input index state =>
    result <- handler parser fuel input index state ;;
    ret (if negb (is_success result) then success index VNull else failure))
    None.

(** [v[key]] on an array; [undefined] elsewhere. *)
Definition get_index (key : nat) (v : Value) : Value :=
  match v with
  | VArr items => nth key items VUndefined
  | _ => VUndefined
  end.

(** [select(key)] *)
Definition select (key : nat) (this : Parser) : Parser :=
  map (get_index key) this.

(** [result => [result[0], ...result[1]]] *)
Definition cons_result (result : Value) : Value :=
  match get_index 1 result with
  | VArr rest => VArr (get_index 0 result :: rest)
  | _ => VUndefined
  end.

(** The [Error] thrown by [sep]; its message is written here with
    apostrophes around [min]. *)
Inductive Error : Type := mkError (message : string).

(** [sep(separator, min)]: throws while the parser is being built. *)
Definition sep (separator : Parser) (min : Z) (this : Parser)
    : Error + Parser :=
  if min <? 1 then
    inl (mkError "'min' must be a value greater than or equal to 1.")
  else
    inr (map cons_result
           (seq [this; many (min - 1) (select 1 (seq [separator; this]))])).

(** [option()] *)
Definition option (this : Parser) : Parser :=
  alt [this; succeeded VNull].

(** [str(value)] *)
Definition str (value : jsstring) : Parser :=
  new_Parser (fun _ input index _ =>
    if (jslength input - index) <? jslength value then ret failure
    else if negb (jseqb (substr input index (jslength value)) value)
    then ret failure
    else ret (success (index + jslength value) (VStr value))) None.

(** A regular expression [re], anchored by [regexp] as [^(?:source)]:
    [re.exec(text)] gives the matched text [result[0]] or [null]. *)
Definition RegExp : Type := jsstring -> Datatypes.option jsstring.

(** [regexp(pattern)], on the anchored expression [re] *)
Definition regexp (re : RegExp) : Parser :=
  new_Parser (fun _ input index _ =>
    let text := slice_from input index in
    match re text with
    | None => ret failure
    | Some matched => ret (success (index + jslength matched) (VStr matched))
    end) None.

Definition cr : Parser := str [13%N].
Definition lf : Parser := str [10%N].
Definition crlf : Parser := str [13%N; 10%N].
Definition newline : Parser := alt [crlf; cr; lf].

(** [char] *)
Definition char : Parser :=
  new_Parser (fun _ input index _ =>
    if (jslength input - index) <? 1 then ret failure
    else ret (success (index + 1) (VStr (charAt input index)))) None.

(** [lineBegin] *)
Definition lineBegin : Parser :=
  new_Parser (fun fuel input index state =>
    if index =? 0 then ret (success index VNull)
    else
      r1 <- handler cr fuel input (index - 1) state ;;
      if is_success r1 then ret (success index VNull)
      else
        r2 <- handler lf fuel input (index - 1) state ;;
        if is_success r2 then ret (success index VNull)
        else ret failure) None.

(** [lineEnd] *)
Definition lineEnd : Parser :=
  new_Parser (fun fuel input index state =>
    if index =? jslength input then ret (success index VNull)
    else
      r1 <- handler cr fuel input index state ;;
      if is_success r1 then ret (success index VNull)
      else
        r2 <- handler lf fuel input index state ;;
        if is_success r2 then ret (success index VNull)
        else ret failure) None.

(** [lazy(fn)]: the first call builds [fn()] and goes on with its
    handler; the later calls use that handler. A constructor [fn] of the
    model is a function, so both give what [fn()]'s handler gives. *)
Definition lazy (fn : unit -> Parser) : Parser :=
  new_Parser (fun fuel input index state =>
    handler (fn tt) fuel input index state) None.

(** The parsers built with the engine: the primitives and the combinators
    applied to built parsers, over the parsers [leaf] of a grammar's own;
    naming a parser ([new Parser(handler, name)], [parser.name = key]) keeps
    it built. *)
Inductive Built (leaf : Parser -> Prop) : Parser -> Prop :=
| built_leaf p : leaf p -> Built leaf p
| built_named n p : Built leaf p -> Built leaf (set_name n p)
| built_str value : Built leaf (str value)
| built_regexp re : Built leaf (regexp re)
| built_char : Built leaf char
| built_lineBegin : Built leaf lineBegin
| built_lineEnd : Built leaf lineEnd
| built_succeeded value : Built leaf (succeeded value)
| built_notMatch p : Built leaf p -> Built leaf (notMatch p)
| built_map fn p : Built leaf p -> Built leaf (map fn p)
| built_text p : Built leaf p -> Built leaf (text p)
| built_many min p : Built leaf p -> Built leaf (many min p)
| built_sep separator min p q :
    Built leaf p -> Built leaf separator -> sep separator min p = inr q ->
    Built leaf q
| built_option p : Built leaf p -> Built leaf (option p)
| built_seq parsers : AllBuilt leaf parsers -> Built leaf (seq parsers)
| built_alt parsers : AllBuilt leaf parsers -> Built leaf (alt parsers)
| built_lazy fn : Built leaf (fn tt) -> Built leaf (lazy fn)
with AllBuilt (leaf : Parser -> Prop) : list Parser -> Prop :=
| all_built_nil : AllBuilt leaf []
| all_built_cons p parsers :
    Built leaf p -> AllBuilt leaf parsers -> AllBuilt leaf (p :: parsers).

(** Every success of [p] carries an index at or after the one it was called
    with. *)
Definition advances (p : Parser) : Prop :=
  forall fuel input index state l value next,
    handler p fuel input index state = Some (l, Success value next) ->
    index <= next.

(** Every success of [p] on [input] carries an index after the one it was
    called with. *)
Definition consumes (p : Parser) (input : jsstring) (state : State U) : Prop :=
  forall fuel index l value next,
    handler p fuel input index state = Some (l, Success value next) ->
    index < next.

(** Every call of [p] on [input] returns, and returns the same, from some
    amount of fuel on. *)
Definition returns (p : Parser) (input : jsstring) (state : State U) : Prop :=
  forall index, exists f r,
    forall fuel, (f <= fuel)%nat -> handler p fuel input index state = Some r.

(** The result of [p] is the same whether [state.trace] is on or off. *)
Definition trace_blind (p : Parser) : Prop :=
  forall fuel input index state,
    outcome (handler p fuel input index (set_trace (Some true) state))
    = outcome (handler p fuel input index (set_trace (Some false) state)).

End WithState.

Arguments Parser U : clear implicits.
Arguments ParserHandler U : clear implicits.

Scheme Built_mind := Minimality for Built Sort Prop
  with AllBuilt_mind := Minimality for AllBuilt Sort Prop.

(** The line terminators, in the order of [newline]. *)
Definition terminators : list jsstring := [[13%N; 10%N]; [13%N]; [10%N]].

(** The first terminator, in that order, that ends at [index]. *)
Definition terminator_before (input : jsstring) (index : Z)
    : Datatypes.option jsstring :=
  find (fun t =>
          (jslength t <=? index)
          && starts_with_at input (Z.to_nat (index - jslength t)) t)
       terminators.

(** The first terminator, in that order, that starts at [index]. *)
Definition terminator_at (input : jsstring) (index : Z)
    : Datatypes.option jsstring :=
  find (fun t => (0 <=? index) && starts_with_at input (Z.to_nat index) t)
       terminators.

Definition is_some {A} (o : Datatypes.option A) : bool :=
  match o with Some _ => true | None => false end.

(** The terminator [newline] takes at a position: the first of [\r\n],
    [\r], [\n], in that order, that the input has there. *)
Definition newline_at (input : jsstring) (i : nat)
    : Datatypes.option jsstring :=
  find (fun t => starts_with_at input i t) terminators.

(** A terminator taken in that order ends at the position [i]: from some
    position before [i], [newline] takes a terminator that ends at [i]. *)
Definition after_newline (input : jsstring) (i : nat) : bool :=
  existsb (fun start =>
             match newline_at input start with
             | Some t => (start + length t =? i)%nat
             | None => false
             end)
          (List.seq 0 i).

(** The position [i] is between the [\r] and the [\n] of a pair. *)
Definition inside_pair (input : jsstring) (i : nat) : bool :=
  (1 <=? i)%nat && starts_with_at input (i - 1) [13%N; 10%N].

(** A small grammar for concrete runs: a named rule over named
    characters. *)
Definition letters : Parser unit :=
  set_name (js "letters") (many 0 (set_name (js "letter") char)).

End Combinators.


(** ** The hashtag matcher *)

Module Hashtag.

(** The part of a [MatcherContext] the matcher reads and writes. *)
Record MatcherContext : Type := mkContext {
  input : jsstring;
  pos : Z
}.

(** [ctx.pos++] *)
Definition advance (ctx : MatcherContext) : MatcherContext :=
  mkContext (input ctx) (pos ctx + 1).

(** [HASHTAG(value)] *)
Inductive MfmHashtag : Type := HASHTAG (value : jsstring).

(** What [ctx.ok(result)] and [ctx.fail()] return. *)
Inductive MatcherResult : Type :=
| Ok (result : MfmHashtag)
| Fail.

(** The character class of the scan's first test, as code units: space,
    U+3000, tab, full stop, comma, exclamation and question marks, the two
    quotes, hash, colon, slash, square brackets, U+3010, U+3011,
    parentheses, U+300C, U+300D, angle brackets. None of them has another
    case, so the [i] flag adds nothing. *)
Definition separators : list code_unit :=
  [32; 12288; 9; 46; 44; 33; 63; 39; 34; 35; 58; 47; 91; 93; 12304; 12305;
   40; 41; 12300; 12301; 60; 62]%N.

(** The test of that class (anchored at the start) on a string. *)
Definition is_separator (s : jsstring) : bool :=
  match s with
  | [] => false
  | c :: _ => existsb (N.eqb c) separators
  end.

Definition is_digit (c : code_unit) : bool :=
  (48 <=? c)%N && (c <=? 57)%N.

(** [/^[0-9]+$/.test(value)] *)
Definition all_digits (value : jsstring) : bool :=
  match value with
  | [] => false
  | _ :: _ => forallb is_digit value
  end.

Section Matcher.

(** The services the matcher imports. *)
Variable isAllowedAsBackChar : MatcherContext -> bool.
(** [ctx.match(LfMatcher)]: its [ok] and the context it leaves. *)
Variable match_LfMatcher : MatcherContext -> bool * MatcherContext.
(** [ctx.eof()] *)
Variable eof : MatcherContext -> bool.
(** [CharCode.hash] *)
Variable CharCode_hash : code_unit.

(** The [while (true)] loop that scans the value: [fuel] bounds its
    iterations. *)
Fixpoint scan_value (fuel : nat) (ctx : MatcherContext) (value : jsstring)
    : option (jsstring * MatcherContext) :=
  match fuel with
  | O => None
  | S fuel' =>
      if is_separator (charAt (input ctx) (pos ctx)) then Some (value, ctx)
      else
        let '(ok, ctx1) := match_LfMatcher ctx in
        if ok then Some (value, ctx1)
        else if eof ctx1 then Some (value, ctx1)
        else scan_value fuel' (advance ctx1)
                        (value ++ charAt (input ctx1) (pos ctx1))
  end.

(** [hashtagMatcher(ctx)] *)
Definition hashtagMatcher (fuel : nat) (ctx : MatcherContext)
    : option (MatcherResult * MatcherContext) :=
  if negb (isAllowedAsBackChar ctx) then Some (Fail, ctx)
  else
    match charCodeAt (input ctx) (pos ctx) with
    | None => Some (Fail, ctx)
    | Some c =>
        if negb (N.eqb c CharCode_hash) then Some (Fail, ctx)
        else
          match scan_value fuel (advance ctx) [] with
          | None => None
          | Some (value, ctx') =>
              if (jslength value =? 0) || all_digits value
              then Some (Fail, ctx')
              else Some (Ok (HASHTAG value), ctx')
          end
    end.

End Matcher.

(** An instance of the services, for running the matcher: no restriction on
    the character before, a line feed matcher that consumes one [\n], the end
    of input at [input.length]. *)
Definition any_back_char (_ : MatcherContext) : bool := true.

Definition lf_matcher (ctx : MatcherContext) : bool * MatcherContext :=
  match charCodeAt (input ctx) (pos ctx) with
  | Some 10%N => (true, advance ctx)
  | _ => (false, ctx)
  end.

Definition at_end (ctx : MatcherContext) : bool :=
  jslength (input ctx) <=? pos ctx.

Definition run_hashtag (fuel : nat) (text : jsstring) (at_ : Z)
    : option (MatcherResult * MatcherContext) :=
  hashtagMatcher any_back_char lf_matcher at_end 35%N fuel (mkContext text at_).

End Hashtag.

(** ** The link rule *)

Module Link.

(** The part of the context the rule reads and writes. *)
Record Context : Type := mkContext {
  input : jsstring;
  pos : Z;
  inLink : bool
}.

(** [ctx.inLink = b] *)
Definition set_inLink (b : bool) (ctx : Context) : Context :=
  mkContext (input ctx) (pos ctx) b.

(** [CharCode], as far as the rule uses it. *)
Record CharCodes : Type := mkCharCodes {
  question : code_unit;
  openBracket : code_unit;
  closeBracket : code_unit;
  closeParen : code_unit
}.

Section Rule.

(** The inline nodes. *)
Variable MfmInline : Type.

(** [LINK(silent, url, children)] *)
Inductive MfmLink : Type :=
  LINK (silent : bool) (url : jsstring) (children : list MfmInline).

(** What [ctx.ok(result)] and [ctx.fail()] return. *)
Inductive MatcherResult : Type :=
| Ok (result : MfmLink)
| Fail.

(** The services the rule imports: each gives what the call returns and the
    context it leaves. *)
Record Services : Type := mkServices {
  CharCode : CharCodes;
  (** [ctx.char(code).ok] *)
  ctx_char : code_unit -> Context -> bool * Context;
  (** [ctx.matchChar(code)] *)
  ctx_matchChar : code_unit -> Context -> bool;
  (** [ctx.str(value).ok] *)
  ctx_str : jsstring -> Context -> bool * Context;
  (** [ctx.parser(inlineParser)]: the result when [ok] *)
  ctx_parser_inline : Context -> option MfmInline * Context;
  (** [ctx.choice([urlAltParser, urlParser])]: [result.props.url] when [ok] *)
  ctx_choice_url : Context -> option jsstring * Context;
  (** [pushNode(node, nodes)] *)
  pushNode : MfmInline -> list MfmInline -> list MfmInline
}.

Variable sv : Services.

(** The [while (true)] loop of the label: [fuel] bounds its iterations. *)
Fixpoint label_loop (fuel : nat) (ctx : Context) (label : list MfmInline)
    : option (list MfmInline * Context) :=
  match fuel with
  | O => None
  | S fuel' =>
      if ctx_matchChar sv (closeBracket (CharCode sv)) ctx then Some (label, ctx)
      else
        match ctx_parser_inline sv ctx with
        | (None, ctx1) => Some (label, ctx1)
        | (Some node, ctx1) => label_loop fuel' ctx1 (pushNode sv node label)
        end
  end.

(** The rule given to [syntax('link', ...)]. *)
Definition linkParser (fuel : nat) (ctx : Context)
    : option (MatcherResult * Context) :=
  let '(silent, ctx1) := ctx_char sv (question (CharCode sv)) ctx in
  let '(ok, ctx2) := ctx_char sv (openBracket (CharCode sv)) ctx1 in
  if negb ok then Some (Fail, ctx2)
  else
    let ctx3 := set_inLink true ctx2 in
    match label_loop fuel ctx3 [] with
    | None => None
    | Some (label, ctx4) =>
        let ctx5 := set_inLink false ctx4 in
        if Z.of_nat (length label) <? 1 then Some (Fail, ctx5)
        else
          let '(ok, ctx6) := ctx_str sv (js "](") ctx5 in
          if negb ok then Some (Fail, ctx6)
          else
            match ctx_choice_url sv ctx6 with
            | (None, ctx7) => Some (Fail, ctx7)
            | (Some url, ctx7) =>
                let '(ok, ctx8) := ctx_char sv (closeParen (CharCode sv)) ctx7 in
                if negb ok then Some (Fail, ctx8)
                else Some (Ok (LINK silent url label), ctx8)
            end
    end.

(** The rule got to its label: the opening bracket was there. *)
Definition reaches_label (ctx : Context) : bool :=
  fst (ctx_char sv (openBracket (CharCode sv))
         (snd (ctx_char sv (question (CharCode sv)) ctx))).

(** The cursor services leave the flag alone. *)
Record keeps_flag : Prop := mkKeepsFlag {
  char_keeps : forall code ctx,
    inLink (snd (ctx_char sv code ctx)) = inLink ctx;
  str_keeps : forall value ctx,
    inLink (snd (ctx_str sv value ctx)) = inLink ctx;
  choice_keeps : forall ctx,
    inLink (snd (ctx_choice_url sv ctx)) = inLink ctx
}.

End Rule.

Arguments Ok {MfmInline}.
Arguments Fail {MfmInline}.
Arguments LINK {MfmInline}.
Arguments mkServices {MfmInline}.
Arguments CharCode {MfmInline}.
Arguments ctx_char {MfmInline}.
Arguments ctx_matchChar {MfmInline}.
Arguments ctx_str {MfmInline}.
Arguments ctx_parser_inline {MfmInline}.
Arguments ctx_choice_url {MfmInline}.
Arguments pushNode {MfmInline}.
Arguments label_loop {MfmInline}.
Arguments linkParser {MfmInline}.
Arguments reaches_label {MfmInline}.
Arguments keeps_flag {MfmInline}.

(** An instance of the services, for running the rule: a cursor over the
    code units, an inline parser that takes one code unit other than [']'],
    a url parser that takes the code units up to [')']. *)
Definition char_at (code : code_unit) (ctx : Context) : bool :=
  match charCodeAt (input ctx) (pos ctx) with
  | Some c => N.eqb c code
  | None => false
  end.

Definition move (n : Z) (ctx : Context) : Context :=
  mkContext (input ctx) (pos ctx + n) (inLink ctx).

Definition cursor_char (code : code_unit) (ctx : Context) : bool * Context :=
  if char_at code ctx then (true, move 1 ctx) else (false, ctx).

Definition cursor_str (value : jsstring) (ctx : Context) : bool * Context :=
  if (0 <=? pos ctx)
     && starts_with_at (input ctx) (Z.to_nat (pos ctx)) value
  then (true, move (jslength value) ctx) else (false, ctx).

Definition one_unit (ctx : Context) : option code_unit * Context :=
  match charCodeAt (input ctx) (pos ctx) with
  | Some c => if N.eqb c 93%N then (None, ctx) else (Some c, move 1 ctx)
  | None => (None, ctx)
  end.

Fixpoint url_units (rest : jsstring) : jsstring :=
  match rest with
  | [] => []
  | c :: rest' => if N.eqb c 41%N then [] else c :: url_units rest'
  end.

Definition cursor_url (ctx : Context) : option jsstring * Context :=
  match url_units (slice_from (input ctx) (pos ctx)) with
  | [] => (None, ctx)
  | url => (Some url, move (jslength url) ctx)
  end.

Definition cursor_services : Services code_unit :=
  mkServices (mkCharCodes 63%N 91%N 93%N 41%N)
    cursor_char char_at cursor_str one_unit cursor_url
    (fun node nodes => nodes ++ [node]).

End Link.


(** ** Notions used to state the laws of the combinators *)

Module Notions.
Import Combinators.

(** [p] writes no line when [state.trace] is not on. *)
Definition quiet {U} (p : Parser U) : Prop :=
  forall fuel input index (state : State U) l r,
    truthy (trace state) = false ->
    handler p fuel input index state = Some (l, r) ->
    l = [].

(** The single-unit strings of a text, as [char] returns them. *)
Definition units (text : jsstring) : list Value :=
  List.map (fun c => VStr [c]) text.

(** An inline parser of the link rule that moves on: a success leaves the
    input as it is and the position further on, inside the input. *)
Definition link_inline_moves_on {MfmInline} (sv : Link.Services MfmInline)
    : Prop :=
  forall ctx node ctx1,
    Link.ctx_parser_inline sv ctx = (Some node, ctx1) ->
    Link.input ctx1 = Link.input ctx
    /\ Link.pos ctx < Link.pos ctx1 <= jslength (Link.input ctx).

(** No code unit of [value] is in the separator class of the hashtag
    scan. *)
Definition no_separator (value : jsstring) : bool :=
  forallb (fun c => negb (existsb (N.eqb c) Hashtag.separators)) value.

End Notions.

(** ** The small tag rule *)

Module Small.

(** The part of the context the rule reads and writes. *)
Record Context : Type := mkContext {
  input : jsstring;
  pos : Z
}.

Section Rule.

(** The inline nodes. *)
Variable MfmInline : Type.

(** [SMALL(children)] *)
Inductive MfmSmall : Type := SMALL (children : list MfmInline).

(** What [ctx.ok(result)] and [ctx.fail()] return. *)
Inductive MatcherResult : Type :=
| Ok (result : MfmSmall)
| Fail.

(** The services the rule imports: each gives what the call returns and the
    context it leaves. *)
Record Services : Type := mkServices {
  (** [ctx.str(value).ok] *)
  ctx_str : jsstring -> Context -> bool * Context;
  (** [ctx.matchStr(value)] *)
  ctx_matchStr : jsstring -> Context -> bool;
  (** [ctx.parser(inlineParser)]: the result when [ok] *)
  ctx_parser_inline : Context -> option MfmInline * Context;
  (** [pushNode(node, nodes)] *)
  pushNode : MfmInline -> list MfmInline -> list MfmInline
}.

Variable sv : Services.

(** The [while (true)] loop of the children: [fuel] bounds its
    iterations. *)
Fixpoint children_loop (fuel : nat) (ctx : Context) (children : list MfmInline)
    : option (list MfmInline * Context) :=
  match fuel with
  | O => None
  | S fuel' =>
      if ctx_matchStr sv (js "</small>") ctx then Some (children, ctx)
      else
        match ctx_parser_inline sv ctx with
        | (None, ctx1) => Some (children, ctx1)
        | (Some node, ctx1) =>
            children_loop fuel' ctx1 (pushNode sv node children)
        end
  end.

(** The rule given to [syntax('small', ...)]. *)
Definition smallTagParser (fuel : nat) (ctx : Context)
    : option (MatcherResult * Context) :=
  let '(ok, ctx1) := ctx_str sv (js "<small>") ctx in
  if negb ok then Some (Fail, ctx1)
  else
    match children_loop fuel ctx1 [] with
    | None => None
    | Some (children, ctx2) =>
        if Z.of_nat (length children) <? 1 then Some (Fail, ctx2)
        else
          let '(ok, ctx3) := ctx_str sv (js "</small>") ctx2 in
          if negb ok then Some (Fail, ctx3)
          else Some (Ok (SMALL children), ctx3)
    end.

(** An inline parser that moves on: a success leaves the input as it is and
    the position further on, inside the input. *)
Definition inline_moves_on : Prop :=
  forall ctx node ctx1,
    ctx_parser_inline sv ctx = (Some node, ctx1) ->
    input ctx1 = input ctx
    /\ pos ctx < pos ctx1 <= jslength (input ctx).

End Rule.

Arguments Ok {MfmInline}.
Arguments Fail {MfmInline}.
Arguments SMALL {MfmInline}.
Arguments mkServices {MfmInline}.
Arguments ctx_str {MfmInline}.
Arguments ctx_matchStr {MfmInline}.
Arguments ctx_parser_inline {MfmInline}.
Arguments pushNode {MfmInline}.
Arguments children_loop {MfmInline}.
Arguments smallTagParser {MfmInline}.
Arguments inline_moves_on {MfmInline}.

(** An instance of the services, for running the rule: a cursor over the
    code units and an inline parser that takes one code unit other than
    ['<']. *)
Definition move (n : Z) (ctx : Context) : Context :=
  mkContext (input ctx) (pos ctx + n).

Definition looking_at (value : jsstring) (ctx : Context) : bool :=
  (0 <=? pos ctx) && starts_with_at (input ctx) (Z.to_nat (pos ctx)) value.

Definition cursor_str (value : jsstring) (ctx : Context) : bool * Context :=
  if looking_at value ctx then (true, move (jslength value) ctx)
  else (false, ctx).

Definition one_unit (ctx : Context) : option N * Context :=
  match charCodeAt (input ctx) (pos ctx) with
  | Some c => if N.eqb c 60%N then (None, ctx) else (Some c, move 1 ctx)
  | None => (None, ctx)
  end.

Definition cursor_services : Services N :=
  mkServices cursor_str looking_at one_unit (fun node nodes => nodes ++ [node]).

End Small.

(** ** [String.prototype.trim] *)

Module JsTrim.

(** The white space and line terminator code units of ECMAScript. *)
Definition is_white_space (c : N) : bool :=
  existsb (N.eqb c)
    [9; 10; 11; 12; 13; 32; 160; 5760; 8232; 8233; 8239; 8287; 12288; 65279]%N
  || ((8192 <=? c)%N && (c <=? 8202)%N).

(** [s.trimStart()] *)
Fixpoint trimStart (s : jsstring) : jsstring :=
  match s with
  | [] => []
  | c :: rest => if is_white_space c then trimStart rest else s
  end.

(** [s.trimEnd()] *)
Fixpoint trimEnd (s : jsstring) : jsstring :=
  match s with
  | [] => []
  | c :: rest =>
      match trimEnd rest with
      | [] => if is_white_space c then [] else [c]
      | kept => c :: kept
      end
  end.

(** [s.trim()] *)
Definition trim (s : jsstring) : jsstring := trimEnd (trimStart s).

End JsTrim.

(** ** The code block rule *)

Module CodeBlock.
Import JsTrim.

(** The part of the context the rule reads and writes. *)
Record Context : Type := mkContext {
  input : jsstring;
  pos : Z
}.

(** [CODE_BLOCK(code, lang)]; [None] is the [null] language. *)
Inductive MfmCodeBlock : Type :=
  CODE_BLOCK (code : jsstring) (lang : option jsstring).

(** What [ctx.ok(result)] and [ctx.fail()] return. *)
Inductive MatcherResult : Type :=
| Ok (result : MfmCodeBlock)
| Fail.

(** A regular expression, by what [exec] gives on a text: the matched text
    or nothing. *)
Definition RegExp : Type := jsstring -> option jsstring.

(** The expression of the rule: [\r\n], or one [\r] or [\n], at the start
    of the text. *)
Definition line_break : RegExp :=
  fun text =>
    match text with
    | 13%N :: 10%N :: _ => Some [13%N; 10%N]
    | 13%N :: _ => Some [13%N]
    | 10%N :: _ => Some [10%N]
    | _ => None
    end.

(** The services the rule imports: each gives what the call returns and the
    context it leaves. *)
Record Services : Type := mkServices {
  (** [ctx.str(value).ok] *)
  ctx_str : jsstring -> Context -> bool * Context;
  (** [ctx.matchRegex(re)] *)
  ctx_matchRegex : RegExp -> Context -> bool;
  (** [ctx.anyChar()]: the result when [ok] *)
  ctx_anyChar : Context -> option jsstring * Context;
  (** [ctx.regex(re).ok] *)
  ctx_regex : RegExp -> Context -> bool * Context
}.

Section Rule.

Variable sv : Services.

(** The [while (true)] loop of the language: [fuel] bounds its
    iterations. *)
Fixpoint lang_loop (fuel : nat) (ctx : Context) (lang : jsstring)
    : option (jsstring * Context) :=
  match fuel with
  | O => None
  | S fuel' =>
      if ctx_matchRegex sv line_break ctx then Some (lang, ctx)
      else
        match ctx_anyChar sv ctx with
        | (None, ctx1) => Some (lang, ctx1)
        | (Some result, ctx1) => lang_loop fuel' ctx1 (lang ++ result)
        end
  end.

(** The rule given to [syntax(...)]. *)
Definition codeBlockParser (fuel : nat) (ctx : Context)
    : option (MatcherResult * Context) :=
  let '(ok, ctx1) := ctx_str sv (js "```") ctx in
  if negb ok then Some (Fail, ctx1)
  else
    match lang_loop fuel ctx1 [] with
    | None => None
    | Some (lang, ctx2) =>
        let '(ok, ctx3) := ctx_regex sv line_break ctx2 in
        if negb ok then Some (Fail, ctx3)
        else
          let '(ok, ctx4) := ctx_regex sv line_break ctx3 in
          if negb ok then Some (Fail, ctx4)
          else
            let '(ok, ctx5) := ctx_str sv (js "```") ctx4 in
            if negb ok then Some (Fail, ctx5)
            else
              let lang := trim lang in
              Some (Ok (CODE_BLOCK []
                          (if 0 <? jslength lang then Some lang else None)),
                    ctx5)
    end.

(** An [anyChar] that moves on: a success leaves the input as it is and the
    position further on, inside the input. *)
Definition anyChar_moves_on : Prop :=
  forall ctx result ctx1,
    ctx_anyChar sv ctx = (Some result, ctx1) ->
    input ctx1 = input ctx
    /\ pos ctx < pos ctx1 <= jslength (input ctx).

End Rule.

(** An instance of the services, for running the rule: a cursor over the
    code units. *)
Definition move (n : Z) (ctx : Context) : Context :=
  mkContext (input ctx) (pos ctx + n).

Definition cursor_str (value : jsstring) (ctx : Context) : bool * Context :=
  if (0 <=? pos ctx)
     && starts_with_at (input ctx) (Z.to_nat (pos ctx)) value
  then (true, move (jslength value) ctx) else (false, ctx).

Definition cursor_matchRegex (re : RegExp) (ctx : Context) : bool :=
  match re (slice_from (input ctx) (pos ctx)) with
  | Some _ => true
  | None => false
  end.

Definition cursor_anyChar (ctx : Context) : option jsstring * Context :=
  match charAt (input ctx) (pos ctx) with
  | [] => (None, ctx)
  | result => (Some result, move 1 ctx)
  end.

Definition cursor_regex (re : RegExp) (ctx : Context) : bool * Context :=
  match re (slice_from (input ctx) (pos ctx)) with
  | Some matched => (true, move (jslength matched) ctx)
  | None => (false, ctx)
  end.

Definition cursor_services : Services :=
  mkServices cursor_str cursor_matchRegex cursor_anyChar cursor_regex.

End CodeBlock.

(** * Properties *)

(** ** JavaScript strings *)

Module JsStringFacts.

Lemma jslength_nonneg (s : jsstring) : 0 <= jslength s.
Proof. unfold jslength. lia. Qed.

Lemma jseqb_eq (a b : jsstring) : jseqb a b = true <-> a = b.
Proof.
  revert b. induction a as [|x a IH]; intros [|y b]; simpl; split;
    try congruence; try reflexivity.
  - intros H. apply andb_prop in H as [Hxy Hab].
    apply N.eqb_eq in Hxy. apply IH in Hab. congruence.
  - intros H. injection H as -> ->. rewrite N.eqb_refl. simpl. now apply IH.
Qed.

Lemma is_prefix_length (s l : jsstring) :
  is_prefix s l = true -> (length s <= length l)%nat.
Proof.
  revert l. induction s as [|x s IH]; intros [|y l]; simpl; intros H;
    try lia; try discriminate.
  apply andb_prop in H as [_ H]. apply IH in H. lia.
Qed.

Lemma is_prefix_firstn (s l : jsstring) :
  is_prefix s l = jseqb (firstn (length s) l) s.
Proof.
  revert l. induction s as [|x s IH]; intros [|y l]; simpl; try reflexivity.
  rewrite IH, (N.eqb_sym x y). reflexivity.
Qed.

Lemma hd_skipn (l : jsstring) (i : nat) :
  hd_error (skipn i l) = nth_error l i.
Proof.
  revert l. induction i as [|i IH]; intros [|x l]; simpl; auto.
Qed.

Lemma skipn_succ (l : jsstring) (i : nat) :
  skipn (S i) l = tl (skipn i l).
Proof.
  revert l. induction i as [|i IH]; intros [|x l]; try reflexivity.
  change (skipn (S (S i)) (x :: l)) with (skipn (S i) l).
  change (skipn (S i) (x :: l)) with (skipn i l). apply IH.
Qed.

Lemma is_prefix_app (s l : jsstring) :
  is_prefix s l = true <-> exists rest, l = s ++ rest.
Proof.
  revert l. induction s as [|x s IH]; intros l; simpl.
  - split; [now exists l | reflexivity].
  - destruct l as [|y l].
    + split; [discriminate | intros [rest H]; discriminate].
    + rewrite andb_true_iff, N.eqb_eq, IH. split.
      * intros [-> [rest ->]]. now exists rest.
      * intros [rest H]. injection H as -> ->. split; [reflexivity|].
        now exists rest.
Qed.

(** [starts_with_at] says that [s] occurs in [input] at the offset
    [index]. *)
Lemma starts_with_at_spec (input : jsstring) (index : nat) (s : jsstring) :
  starts_with_at input index s = true
  <-> exists before after,
        input = before ++ s ++ after /\ length before = index.
Proof.
  unfold starts_with_at. rewrite andb_true_iff, Nat.leb_le, is_prefix_app.
  split.
  - intros [Hle [rest Hrest]]. exists (firstn index input), rest. split.
    + now rewrite <- Hrest, firstn_skipn.
    + rewrite length_firstn. lia.
  - intros [before [after [-> <-]]]. split.
    + rewrite length_app. lia.
    + exists after. rewrite skipn_app, skipn_all, Nat.sub_diag. reflexivity.
Qed.

(** One code unit at an offset. *)
Lemma starts_with_one (input : jsstring) (i : nat) (c : code_unit) :
  starts_with_at input i [c]
  = match nth_error input i with Some x => N.eqb c x | None => false end.
Proof.
  unfold starts_with_at. rewrite <- hd_skipn.
  destruct (Nat.leb_spec i (length input)) as [Hle|Hgt]; simpl.
  - destruct (skipn i input) as [|y r]; simpl; [reflexivity|].
    now rewrite andb_true_r.
  - rewrite skipn_all2 by lia. reflexivity.
Qed.

(** Two code units at an offset. *)
Lemma starts_with_two (input : jsstring) (i : nat) (c d : code_unit) :
  starts_with_at input i [c; d]
  = starts_with_at input i [c] && starts_with_at input (S i) [d].
Proof.
  rewrite !starts_with_one. unfold starts_with_at.
  rewrite <- !hd_skipn, skipn_succ.
  destruct (Nat.leb_spec i (length input)) as [Hle|Hgt]; simpl.
  - destruct (skipn i input) as [|y [|z r]]; simpl;
      rewrite ?andb_true_r, ?andb_false_r; reflexivity.
  - rewrite skipn_all2 by lia. reflexivity.
Qed.

(** [substr] inside the string is the plain sub-list. *)
Lemma substr_inside (input : jsstring) (i : nat) (n : nat) :
  Z.of_nat i + Z.of_nat n <= jslength input ->
  substr input (Z.of_nat i) (Z.of_nat n) = firstn n (skipn i input).
Proof.
  intros H. unfold substr, substring.
  destruct (Z.ltb_spec (Z.of_nat i) 0) as [Hn|_]; [lia|].
  pose proof (jslength_nonneg input) as Hlen.
  replace (Z.min (Z.of_nat i) (jslength input)) with (Z.of_nat i) by lia.
  replace (Z.min (Z.max (Z.of_nat n) 0) (jslength input)) with (Z.of_nat n)
    by lia.
  replace (Z.min (Z.of_nat i + Z.of_nat n) (jslength input))
    with (Z.of_nat i + Z.of_nat n) by lia.
  replace (Z.to_nat (Z.of_nat i + Z.of_nat n - Z.of_nat i)) with n by lia.
  now rewrite Nat2Z.id.
Qed.

End JsStringFacts.

(** ** The combinators *)

Module CombinatorsFacts.
Import Combinators JsStringFacts.
Local Open Scope run_scope.

Create HintDb advances.
Create HintDb trace_blind.

Section WithState.
Context {U : Type}.
Implicit Types (p this separator : Parser U) (parsers : list (Parser U)).
Implicit Types (state : State U) (input : jsstring).

(** *** Calls *)

Lemma bind_some {A B} (m : Run A) (k : A -> Run B) l b :
  bind m k = Some (l, b) ->
  exists l1 a l2, m = Some (l1, a) /\ k a = Some (l2, b) /\ l = l1 ++ l2.
Proof.
  unfold bind. destruct m as [[l1 a]|]; [|discriminate].
  destruct (k a) as [[l2 b']|] eqn:Hk; [|discriminate].
  intros H. injection H as <- <-. now exists l1, a, l2.
Qed.

Lemma outcome_bind {A B} (m : Run A) (k : A -> Run B) :
  outcome (bind m k)
  = match outcome m with Some a => outcome (k a) | None => None end.
Proof.
  unfold bind, outcome. destruct m as [[l a]|]; [|reflexivity].
  now destruct (k a) as [[l' b]|].
Qed.

(** The wrapper of the constructor returns what the given handler
    returns. *)
Lemma handler_outcome p fuel input index state :
  outcome (handler p fuel input index state)
  = outcome (given p fuel input index state).
Proof.
  unfold handler. destruct (truthy (trace state)); [|reflexivity].
  destruct (name p) as [n|]; [|reflexivity].
  unfold bind, log, ret, outcome.
  destruct (given p fuel input index state) as [[l [v next|]]|]; reflexivity.
Qed.

Lemma handler_given p fuel input index state l r :
  handler p fuel input index state = Some (l, r) ->
  exists l', given p fuel input index state = Some (l', r).
Proof.
  intros H. pose proof (handler_outcome p fuel input index state) as Ho.
  rewrite H in Ho. simpl in Ho.
  destruct (given p fuel input index state) as [[l' r']|]; [|discriminate].
  simpl in Ho. injection Ho as <-. now exists l'.
Qed.

Lemma given_handler p fuel input index state l r :
  given p fuel input index state = Some (l, r) ->
  exists l', handler p fuel input index state = Some (l', r).
Proof.
  intros H. pose proof (handler_outcome p fuel input index state) as Ho.
  rewrite H in Ho. simpl in Ho.
  destruct (handler p fuel input index state) as [[l' r']|]; [|discriminate].
  simpl in Ho. injection Ho as ->. now exists l'.
Qed.

(** A parser without a name writes no line of its own. *)
Lemma handler_unnamed p fuel input index state :
  name p = None ->
  handler p fuel input index state = given p fuel input index state.
Proof.
  intros H. unfold handler. rewrite H. now destruct (truthy (trace state)).
Qed.

(** *** The literal matcher *)

Lemma str_run value fuel input (i : nat) state :
  handler (str value) fuel input (Z.of_nat i) state
  = Some ([], if starts_with_at input i value
              then Success (VStr value) (Z.of_nat i + jslength value)
              else Failure).
Proof.
  unfold handler, str. simpl. rewrite Tauto.if_same.
  unfold starts_with_at.
  destruct (Z.ltb_spec (jslength input - Z.of_nat i) (jslength value))
    as [Hshort|Hfits].
  - destruct (Nat.leb_spec i (length input)) as [Hle|Hgt]; [|reflexivity].
    simpl. destruct (is_prefix value (skipn i input)) eqn:Hp; [|reflexivity].
    apply is_prefix_length in Hp. rewrite length_skipn in Hp.
    unfold jslength in Hshort. lia.
  - pose proof (jslength_nonneg value) as Hv.
    unfold jslength at 1. rewrite substr_inside by (unfold jslength in *; lia).
    rewrite <- is_prefix_firstn.
    destruct (Nat.leb_spec i (length input)) as [Hle|Hgt];
      [|unfold jslength in *; lia].
    simpl. now destruct (is_prefix value (skipn i input)).
Qed.

(** C7. The literal matcher [str(s)], at every position of every input:
    when the input starts with [s] there it succeeds with the value [s] and
    the index advanced by the length of [s]; otherwise it fails, also when
    fewer than [s.length] code units remain; and the failure it returns has
    no index. *)
Theorem str_literal value fuel input (i : nat) state :
  handler (str value) fuel input (Z.of_nat i) state
  = Some ([], if starts_with_at input i value
              then Success (VStr value) (Z.of_nat i + jslength value)
              else Failure)
  /\ (jslength input - Z.of_nat i < jslength value ->
      starts_with_at input i value = false
      /\ handler (str value) fuel input (Z.of_nat i) state
         = Some ([], Failure)).
Proof.
  split; [apply str_run|].
  intros Hshort.
  assert (Hno : starts_with_at input i value = false).
  { unfold starts_with_at.
    destruct (Nat.leb_spec i (length input)) as [Hle|Hgt]; [|reflexivity].
    simpl. destruct (is_prefix value (skipn i input)) eqn:Hp; [|reflexivity].
    apply is_prefix_length in Hp. rewrite length_skipn in Hp.
    unfold jslength in Hshort. lia. }
  split; [exact Hno|]. now rewrite str_run, Hno.
Qed.


(** *** Optional *)

(** C5. [option()] never fails: whenever [p] returns, [option()] returns a
    success, with the value and index of [p] when [p] succeeded and with
    [null] at the unchanged index when [p] failed. *)
Theorem option_never_fails this fuel input index state :
  handler (option this) fuel input index state
  = match handler this fuel input index state with
    | Some (l, Success value next) => Some (l, Success value next)
    | Some (l, Failure) => Some (l, Success VNull index)
    | None => None
    end.
Proof.
  rewrite (handler_unnamed (option this)) by reflexivity. simpl.
  rewrite (handler_unnamed (succeeded VNull)) by reflexivity. simpl.
  unfold bind.
  destruct (handler this fuel input index state) as [[l [value next|]]|];
    simpl; rewrite ?app_nil_r; reflexivity.
Qed.

(** *** Repeat *)

Lemma many_unfold min this fuel input index state :
  handler (many min this) fuel input index state
  = (r <- many_loop fuel this fuel input index [] state ;;
     let '(latestIndex, accum) := r in
     if Z.of_nat (length accum) <? min
     then ret failure
     else ret (success latestIndex (VArr accum))).
Proof.
  unfold handler. simpl. now rewrite Tauto.if_same.
Qed.

Lemma many_loop_at_end n this fuel input index accum state :
  jslength input <= index ->
  many_loop n this fuel input index accum state = ret (index, accum).
Proof.
  intros H. destruct n; simpl;
    destruct (Z.ltb_spec index (jslength input)); try lia; reflexivity.
Qed.

(** C8, as the code has it. At the end of the input [many(min)] does not
    call its parser: for every parser, every [min] and every amount of fuel
    it returns at once, without a trace line, the empty accumulation when
    [min <= 0] and a failure when [min] is positive. *)
Theorem many_at_end this min fuel input state :
  handler (many min this) fuel input (jslength input) state
  = Some ([], if 0 <? min
              then Failure
              else Success (VArr []) (jslength input)).
Proof.
  rewrite many_unfold, many_loop_at_end by lia. simpl.
  now destruct (0 <? min).
Qed.


Lemma many_loop_returns this input state :
  returns this input state ->
  consumes this input state ->
  forall k index accum,
    (Z.to_nat (jslength input - index) <= k)%nat ->
    exists f r, forall fuel n,
      (f <= fuel)%nat -> (k <= n)%nat ->
      many_loop n this fuel input index accum state = Some r.
Proof.
  intros Hret Hcons k.
  induction k as [|k IH]; intros index accum Hk.
  - exists 0%nat, ([], (index, accum)). intros fuel n _ _.
    apply many_loop_at_end. lia.
  - destruct (Z.ltb_spec index (jslength input)) as [Hin|Hout].
    2:{ exists 0%nat, ([], (index, accum)). intros fuel n _ _.
        now apply many_loop_at_end. }
    destruct (Hret index) as [f1 [[l1 r1] H1]].
    destruct r1 as [value next|].
    + assert (Hlt : index < next).
      { apply (Hcons f1 index l1 value next). apply H1. lia. }
      destruct (IH next (accum ++ [value])) as [f2 [[l2 r2] H2]]; [lia|].
      exists (Nat.max f1 f2), (l1 ++ l2, r2). intros fuel n Hf Hn.
      destruct n as [|n]; [lia|]. simpl.
      destruct (Z.ltb_spec index (jslength input)); [|lia].
      rewrite H1 by lia. simpl. rewrite H2 by lia. reflexivity.
    + exists f1, (l1 ++ [], (index, accum)). intros fuel n Hf Hn.
      destruct n as [|n]; [lia|]. simpl.
      destruct (Z.ltb_spec index (jslength input)); [|lia].
      rewrite H1 by lia. reflexivity.
Qed.

(** C1, as the code has it. [many(min)] returns, for every input, index and
    [min], when each call of its parser returns and each success of its
    parser moves the index forward: the loop then ends at a failure of the
    parser or at the end of the input. *)
Theorem many_terminates this min input index state :
  returns this input state ->
  consumes this input state ->
  exists f r, forall fuel,
    (f <= fuel)%nat ->
    handler (many min this) fuel input index state = Some r.
Proof.
  intros Hret Hcons.
  destruct (many_loop_returns this input state Hret Hcons
              (Z.to_nat (jslength input - index)) index [] (le_n _))
    as [f [[l [latest accum]] H]].
  exists (Nat.max f (Z.to_nat (jslength input - index))).
  exists (l ++ [],
          if Z.of_nat (length accum) <? min
          then failure else success latest (VArr accum)).
  intros fuel Hf. rewrite many_unfold, H by lia. simpl.
  now destruct (Z.of_nat (length accum) <? min).
Qed.

Lemma char_run fuel input index state :
  handler char fuel input index state
  = Some ([], if jslength input - index <? 1
              then Failure
              else Success (VStr (charAt input index)) (index + 1)).
Proof.
  rewrite handler_unnamed by reflexivity. simpl.
  now destruct (jslength input - index <? 1).
Qed.

Lemma char_returns input state : returns char input state.
Proof.
  intros index. eexists 0%nat, _. intros fuel _. apply char_run.
Qed.

Lemma char_consumes input state : consumes char input state.
Proof.
  intros fuel index l value next. rewrite char_run.
  destruct (jslength input - index <? 1); intros H; [discriminate|].
  injection H as _ _ <-. lia.
Qed.

Lemma lineBegin_at_start fuel input state :
  handler lineBegin fuel input 0 state = Some ([], Success VNull 0).
Proof. now rewrite handler_unnamed. Qed.

(** A parser that succeeds at an index inside the input without moving
    keeps the loop of [many] going for ever. *)
Lemma many_loop_stuck this input index state :
  index < jslength input ->
  (forall fuel, exists l value,
      handler this fuel input index state = Some (l, Success value index)) ->
  forall n fuel accum,
    many_loop n this fuel input index accum state = None.
Proof.
  intros Hin Hstuck n. induction n as [|n IH]; intros fuel accum; simpl;
    destruct (Z.ltb_spec index (jslength input)); try lia; [reflexivity|].
  destruct (Hstuck fuel) as [l [value ->]]. simpl. now rewrite IH.
Qed.

(** *** Line boundaries *)

Lemma lineBegin_unfold fuel input index state :
  handler lineBegin fuel input index state
  = if index =? 0 then ret (success index VNull)
    else
      r1 <- handler cr fuel input (index - 1) state ;;
      if is_success r1 then ret (success index VNull)
      else
        r2 <- handler lf fuel input (index - 1) state ;;
        if is_success r2 then ret (success index VNull)
        else ret failure.
Proof. now rewrite handler_unnamed. Qed.

Lemma lineEnd_unfold fuel input index state :
  handler lineEnd fuel input index state
  = if index =? jslength input then ret (success index VNull)
    else
      r1 <- handler cr fuel input index state ;;
      if is_success r1 then ret (success index VNull)
      else
        r2 <- handler lf fuel input index state ;;
        if is_success r2 then ret (success index VNull)
        else ret failure.
Proof. now rewrite handler_unnamed. Qed.

(** A terminator ends at an index exactly when the code unit before the
    index is [\r] or [\n]. *)
Lemma terminator_before_some input (i : nat) :
  is_some (terminator_before input (Z.of_nat (S i)))
  = starts_with_at input i [13%N] || starts_with_at input i [10%N].
Proof.
  unfold terminator_before, terminators. cbn [find].
  change (jslength [13%N; 10%N]) with 2.
  change (jslength [13%N]) with 1. change (jslength [10%N]) with 1.
  replace (Z.to_nat (Z.of_nat (S i) - 1)) with i by lia.
  replace (1 <=? Z.of_nat (S i)) with true by (symmetry; apply Z.leb_le; lia).
  cbn [andb].
  destruct i as [|k].
  - replace (2 <=? Z.of_nat 1) with false by reflexivity. cbn [andb].
    destruct (starts_with_at input 0 [13%N]), (starts_with_at input 0 [10%N]);
      reflexivity.
  - replace (2 <=? Z.of_nat (S (S k))) with true
      by (symmetry; apply Z.leb_le; lia).
    replace (Z.to_nat (Z.of_nat (S (S k)) - 2)) with k by lia.
    cbn [andb]. rewrite starts_with_two.
    destruct (starts_with_at input k [13%N]),
      (starts_with_at input (S k) [13%N]),
      (starts_with_at input (S k) [10%N]); reflexivity.
Qed.

(** A terminator starts at an index exactly when the code unit at the index
    is [\r] or [\n]. *)
Lemma terminator_at_some input (i : nat) :
  is_some (terminator_at input (Z.of_nat i))
  = starts_with_at input i [13%N] || starts_with_at input i [10%N].
Proof.
  unfold terminator_at, terminators. cbn [find].
  replace (0 <=? Z.of_nat i) with true by (symmetry; apply Z.leb_le; lia).
  rewrite Nat2Z.id. cbn [andb]. rewrite starts_with_two.
  destruct (starts_with_at input i [13%N]),
    (starts_with_at input (S i) [10%N]),
    (starts_with_at input i [10%N]); reflexivity.
Qed.

Lemma lineBegin_run fuel input (i : nat) state :
  handler lineBegin fuel input (Z.of_nat i) state
  = Some ([], if (Z.of_nat i =? 0)
                 || is_some (terminator_before input (Z.of_nat i))
              then Success VNull (Z.of_nat i)
              else Failure).
Proof.
  rewrite lineBegin_unfold. destruct i as [|j]; [reflexivity|].
  rewrite terminator_before_some.
  replace (Z.of_nat (S j) =? 0) with false by (symmetry; apply Z.eqb_neq; lia).
  replace (Z.of_nat (S j) - 1) with (Z.of_nat j) by lia.
  unfold cr, lf. rewrite !str_run. cbn [orb].
  destruct (starts_with_at input j [13%N]), (starts_with_at input j [10%N]);
    reflexivity.
Qed.

Lemma lineEnd_run fuel input (i : nat) state :
  handler lineEnd fuel input (Z.of_nat i) state
  = Some ([], if (Z.of_nat i =? jslength input)
                 || is_some (terminator_at input (Z.of_nat i))
              then Success VNull (Z.of_nat i)
              else Failure).
Proof.
  rewrite lineEnd_unfold, terminator_at_some.
  unfold cr, lf. rewrite !str_run.
  destruct (Z.of_nat i =? jslength input); [reflexivity|]. cbn [orb].
  destruct (starts_with_at input i [13%N]), (starts_with_at input i [10%N]);
    reflexivity.
Qed.

(** A position cannot hold both [\r] and [\n]. *)
Lemma cr_excludes_lf input (i : nat) :
  starts_with_at input i [13%N] = true ->
  starts_with_at input i [10%N] = false.
Proof.
  rewrite !starts_with_one. destruct (nth_error input i) as [c|]; [|easy].
  intros H. apply N.eqb_eq in H. now subst c.
Qed.

Lemma newline_at_cases input (i : nat) :
  newline_at input i
  = if starts_with_at input i [13%N] && starts_with_at input (S i) [10%N]
    then Some [13%N; 10%N]
    else if starts_with_at input i [13%N] then Some [13%N]
    else if starts_with_at input i [10%N] then Some [10%N]
    else None.
Proof.
  unfold newline_at, terminators. cbn [find]. now rewrite starts_with_two.
Qed.

Lemma after_newline_spec input (i : nat) :
  after_newline input i = true
  <-> exists start t,
        newline_at input start = Some t /\ (start + length t = i)%nat.
Proof.
  unfold after_newline. rewrite existsb_exists. split.
  - intros [start [_ H]].
    destruct (newline_at input start) as [t|] eqn:Ht; [|discriminate].
    apply Nat.eqb_eq in H. now exists start, t.
  - intros [start [t [Ht Hend]]]. exists start. split.
    + apply in_seq. split; [lia|].
      rewrite newline_at_cases in Ht.
      repeat (destruct (_ : bool) in Ht);
        try discriminate; injection Ht as <-; simpl in Hend; lia.
    + rewrite Ht. now apply Nat.eqb_eq.
Qed.

(** A terminator taken in order ends after a code unit exactly when that
    unit is [\n], or is [\r] and no [\n] follows it. *)
Lemma after_newline_units input (j : nat) :
  after_newline input (S j)
  = (starts_with_at input j [13%N] && negb (starts_with_at input (S j) [10%N]))
    || starts_with_at input j [10%N].
Proof.
  apply eq_true_iff_eq. rewrite after_newline_spec. split.
  - intros [start [t [Ht Hend]]]. rewrite newline_at_cases in Ht.
    destruct (starts_with_at input start [13%N]) eqn:Ha;
      destruct (starts_with_at input (S start) [10%N]) eqn:Hb;
      cbn [andb] in Ht.
    + injection Ht as <-. simpl in Hend.
      replace j with (S start) by lia. rewrite Hb. apply orb_true_r.
    + injection Ht as <-. simpl in Hend.
      replace j with start by lia. now rewrite Ha, Hb.
    + destruct (starts_with_at input start [10%N]) eqn:Hc; [|discriminate].
      injection Ht as <-. simpl in Hend.
      replace j with start by lia. rewrite Hc. apply orb_true_r.
    + destruct (starts_with_at input start [10%N]) eqn:Hc; [|discriminate].
      injection Ht as <-. simpl in Hend.
      replace j with start by lia. rewrite Hc. apply orb_true_r.
  - intros H. apply orb_true_iff in H as [H|Hc].
    + apply andb_true_iff in H as [Ha Hb]. apply negb_true_iff in Hb.
      exists j, [13%N]. rewrite newline_at_cases, Ha, Hb. simpl.
      split; [reflexivity | lia].
    + exists j, [10%N]. rewrite newline_at_cases, Hc.
      destruct (starts_with_at input j [13%N]) eqn:Ha.
      * apply cr_excludes_lf in Ha. congruence.
      * simpl. split; [reflexivity | lia].
Qed.

Lemma newline_at_some input (i : nat) :
  is_some (newline_at input i)
  = starts_with_at input i [13%N] || starts_with_at input i [10%N].
Proof.
  rewrite newline_at_cases.
  destruct (starts_with_at input i [13%N]),
    (starts_with_at input (S i) [10%N]),
    (starts_with_at input i [10%N]); reflexivity.
Qed.

(** C3, as the code has it. [lineBegin] succeeds exactly at index 0, where
    a line terminator ([\r\n], [\r] or [\n], taken in that order) ends, and
    between the [\r] and the [\n] of a pair: it looks at the one code unit
    before the index and does not take [\r\n] as one terminator. [lineEnd]
    succeeds exactly at the end of the input and where such a terminator
    starts. Both return the index they were given. Between the [\r] and the
    [\n] of a pair no terminator taken in order ends, and the terminator
    that starts there is [\n]; both succeed there. *)
Theorem line_boundaries_by_unit fuel input (i : nat) state :
  handler lineBegin fuel input (Z.of_nat i) state
  = Some ([], if (i =? 0)%nat || after_newline input i || inside_pair input i
              then Success VNull (Z.of_nat i)
              else Failure)
  /\ handler lineEnd fuel input (Z.of_nat i) state
     = Some ([], if (i =? length input)%nat || is_some (newline_at input i)
                 then Success VNull (Z.of_nat i)
                 else Failure)
  /\ (forall before after,
        inside_pair (before ++ [13%N; 10%N] ++ after) (S (length before))
        = true
        /\ after_newline (before ++ [13%N; 10%N] ++ after) (S (length before))
           = false
        /\ newline_at (before ++ [13%N; 10%N] ++ after) (S (length before))
           = Some [10%N]
        /\ handler lineBegin fuel (before ++ [13%N; 10%N] ++ after)
                   (Z.of_nat (S (length before))) state
           = Some ([], Success VNull (Z.of_nat (S (length before))))
        /\ handler lineEnd fuel (before ++ [13%N; 10%N] ++ after)
                   (Z.of_nat (S (length before))) state
           = Some ([], Success VNull (Z.of_nat (S (length before))))).
Proof.
  assert (Hbegin : forall text (k : nat),
    handler lineBegin fuel text (Z.of_nat k) state
    = Some ([], if (k =? 0)%nat || after_newline text k || inside_pair text k
                then Success VNull (Z.of_nat k)
                else Failure)).
  { intros text k. rewrite lineBegin_run. destruct k as [|j]; [reflexivity|].
    rewrite terminator_before_some, after_newline_units.
    unfold inside_pair. cbn [Nat.leb Nat.eqb orb andb].
    replace (S j - 1)%nat with j by lia. rewrite starts_with_two.
    replace (Z.of_nat (S j) =? 0) with false
      by (symmetry; apply Z.eqb_neq; lia).
    cbn [orb].
    destruct (starts_with_at text j [13%N]),
      (starts_with_at text (S j) [10%N]),
      (starts_with_at text j [10%N]); reflexivity. }
  assert (Hend : forall text (k : nat),
    handler lineEnd fuel text (Z.of_nat k) state
    = Some ([], if (k =? length text)%nat || is_some (newline_at text k)
                then Success VNull (Z.of_nat k)
                else Failure)).
  { intros text k.
    rewrite lineEnd_run, terminator_at_some, newline_at_some.
    replace (Z.of_nat k =? jslength text) with (k =? length text)%nat;
      [reflexivity|].
    unfold jslength.
    destruct (Nat.eqb_spec k (length text)), (Z.eqb_spec (Z.of_nat k)
      (Z.of_nat (length text))); try reflexivity; lia. }
  split; [apply Hbegin|]. split; [apply Hend|].
  intros before after.
  set (text := before ++ [13%N; 10%N] ++ after).
  assert (Hcr : starts_with_at text (length before) [13%N] = true).
  { rewrite starts_with_one. unfold text.
    now rewrite nth_error_app2, Nat.sub_diag by lia. }
  assert (Hlf : starts_with_at text (S (length before)) [10%N] = true).
  { rewrite starts_with_one. unfold text. rewrite nth_error_app2 by lia.
    replace (S (length before) - length before)%nat with 1%nat by lia.
    reflexivity. }
  assert (Hnocr : starts_with_at text (S (length before)) [13%N] = false).
  { rewrite starts_with_one in Hlf |- *.
    destruct (nth_error text (S (length before))) as [c|]; [|reflexivity].
    apply N.eqb_eq in Hlf. now subst c. }
  assert (Hpair : inside_pair text (S (length before)) = true).
  { unfold inside_pair. cbn [Nat.leb andb].
    replace (S (length before) - 1)%nat with (length before) by lia.
    now rewrite starts_with_two, Hcr, Hlf. }
  assert (Hafter : after_newline text (S (length before)) = false).
  { rewrite after_newline_units, Hcr, Hlf.
    now rewrite (cr_excludes_lf text (length before) Hcr). }
  assert (Hat : newline_at text (S (length before)) = Some [10%N]).
  { now rewrite newline_at_cases, Hnocr, Hlf. }
  split; [exact Hpair|]. split; [exact Hafter|]. split; [exact Hat|].
  rewrite Hbegin, Hend, Hpair, Hat. cbn [is_some].
  rewrite !orb_true_r. split; reflexivity.
Qed.

(** *** Successes never move backwards *)

Lemma advances_given p :
  (forall fuel input index state l value next,
      given p fuel input index state = Some (l, Success value next) ->
      index <= next) ->
  advances p.
Proof.
  intros H fuel input index state l value next Hrun.
  apply handler_given in Hrun as [l' Hrun]. eapply H, Hrun.
Qed.

Lemma advances_named n p : advances p -> advances (set_name n p).
Proof.
  intros H. apply advances_given. simpl.
  intros fuel input index state l value next Hrun.
  apply given_handler in Hrun as [l' Hrun]. eapply H, Hrun.
Qed.

Lemma advances_str value : @advances U (str value).
Proof.
  apply advances_given. simpl. intros _ input index _ l v next.
  pose proof (jslength_nonneg value).
  destruct (jslength input - index <? jslength value); [discriminate|].
  destruct (jseqb _ _); [|discriminate]. simpl.
  intros H'. injection H' as _ _ <-. lia.
Qed.

Lemma advances_regexp re : @advances U (regexp re).
Proof.
  apply advances_given. simpl. intros _ input index _ l v next.
  destruct (re (slice_from input index)) as [matched|]; [|discriminate].
  pose proof (jslength_nonneg matched).
  intros H'. injection H' as _ _ <-. lia.
Qed.

Lemma advances_char : @advances U char.
Proof.
  intros fuel input index state l v next. rewrite char_run.
  destruct (jslength input - index <? 1); [discriminate|].
  intros H. injection H as _ _ <-. lia.
Qed.

Lemma advances_succeeded value : @advances U (succeeded value).
Proof.
  apply advances_given. simpl. intros _ _ index _ l v next H.
  injection H as _ _ <-. lia.
Qed.

Lemma advances_notMatch p : advances (notMatch p).
Proof.
  apply advances_given. simpl. intros fuel input index state l v next H.
  apply bind_some in H as (l1 & r & l2 & _ & H & _).
  destruct (is_success r); [discriminate|].
  injection H as _ _ <-. lia.
Qed.

Lemma advances_lineBegin : @advances U lineBegin.
Proof.
  intros fuel input index state l v next. rewrite lineBegin_unfold.
  destruct (index =? 0).
  - intros H. injection H as _ _ <-. lia.
  - intros H. apply bind_some in H as (l1 & r1 & l2 & _ & H & _).
    destruct (is_success r1).
    + injection H as _ _ <-. lia.
    + apply bind_some in H as (l3 & r2 & l4 & _ & H & _).
      destruct (is_success r2); [|discriminate].
      injection H as _ _ <-. lia.
Qed.

Lemma advances_lineEnd : @advances U lineEnd.
Proof.
  intros fuel input index state l v next. rewrite lineEnd_unfold.
  destruct (index =? jslength input).
  - intros H. injection H as _ _ <-. lia.
  - intros H. apply bind_some in H as (l1 & r1 & l2 & _ & H & _).
    destruct (is_success r1).
    + injection H as _ _ <-. lia.
    + apply bind_some in H as (l3 & r2 & l4 & _ & H & _).
      destruct (is_success r2); [|discriminate].
      injection H as _ _ <-. lia.
Qed.

Lemma advances_map fn this : advances this -> advances (map fn this).
Proof.
  intros Hthis. apply advances_given. simpl.
  intros fuel input index state l v next H.
  apply bind_some in H as (l1 & r & l2 & Hr & H & _).
  destruct r as [value next'|]; [|discriminate].
  injection H as _ _ <-. eapply Hthis, Hr.
Qed.

Lemma advances_text this : advances this -> advances (text this).
Proof.
  intros Hthis. apply advances_given. simpl.
  intros fuel input index state l v next H.
  apply bind_some in H as (l1 & r & l2 & Hr & H & _).
  destruct r as [value next'|]; [|discriminate].
  injection H as _ _ <-. eapply Hthis, Hr.
Qed.

Lemma many_loop_advances this :
  advances this ->
  forall n fuel input index accum state l latest accum',
    many_loop n this fuel input index accum state = Some (l, (latest, accum')) ->
    index <= latest.
Proof.
  intros Hthis n.
  induction n as [|n IH]; intros fuel input index accum state l latest accum';
    simpl; destruct (index <? jslength input); intros H;
    try discriminate; try (injection H as _ <- _; lia).
  apply bind_some in H as (l1 & r & l2 & Hr & H & _).
  destruct r as [value next|].
  - apply Hthis in Hr. apply IH in H. lia.
  - injection H as _ <- _. lia.
Qed.

Lemma advances_many min this : advances this -> advances (many min this).
Proof.
  intros Hthis fuel input index state l v next. rewrite many_unfold.
  intros H. apply bind_some in H as (l1 & [latest accum] & l2 & Hr & H & _).
  apply (many_loop_advances this Hthis) in Hr.
  destruct (Z.of_nat (length accum) <? min); [discriminate|].
  injection H as _ _ <-. exact Hr.
Qed.

Lemma seq_loop_advances parsers :
  Forall advances parsers ->
  forall fuel input index accum state l value next,
    seq_loop parsers fuel input index accum state
    = Some (l, Success value next) ->
    index <= next.
Proof.
  induction 1 as [|p parsers Hp _ IH];
    intros fuel input index accum state l value next; simpl; intros H.
  - injection H as _ _ <-. lia.
  - apply bind_some in H as (l1 & r & l2 & Hr & H & _).
    destruct r as [v next'|]; [|discriminate].
    apply Hp in Hr. apply IH in H. lia.
Qed.

Lemma advances_seq parsers : Forall advances parsers -> advances (seq parsers).
Proof.
  intros Hall. apply advances_given. simpl.
  intros fuel input index state l value next.
  now apply seq_loop_advances.
Qed.

Lemma alt_loop_advances parsers :
  Forall advances parsers ->
  forall fuel input index state l value next,
    alt_loop parsers fuel input index state = Some (l, Success value next) ->
    index <= next.
Proof.
  induction 1 as [|p parsers Hp _ IH];
    intros fuel input index state l value next; simpl; intros H.
  - discriminate.
  - apply bind_some in H as (l1 & r & l2 & Hr & H & _).
    destruct r as [v next'|].
    + injection H as _ <- <-. eapply Hp, Hr.
    + eapply IH, H.
Qed.

Lemma advances_alt parsers : Forall advances parsers -> advances (alt parsers).
Proof.
  intros Hall. apply advances_given. simpl.
  intros fuel input index state l value next.
  now apply alt_loop_advances.
Qed.

Lemma advances_option this : advances this -> advances (option this).
Proof.
  intros Hthis. apply advances_alt.
  repeat constructor; [exact Hthis | apply advances_succeeded].
Qed.

Lemma advances_select key this : advances this -> advances (select key this).
Proof. apply advances_map. Qed.

Lemma advances_sep separator min this q :
  advances this -> advances separator ->
  sep separator min this = inr q -> advances q.
Proof.
  intros Hthis Hsep. unfold sep. destruct (min <? 1); [discriminate|].
  intros H. injection H as <-.
  apply advances_map, advances_seq.
  repeat constructor; [exact Hthis|].
  apply advances_many, advances_select, advances_seq.
  repeat constructor; assumption.
Qed.

Lemma advances_lazy (fn : unit -> Parser U) :
  advances (fn tt) -> advances (lazy fn).
Proof.
  intros H. apply advances_given. simpl. exact H.
Qed.

#[local] Hint Resolve advances_named advances_str advances_regexp
  advances_char advances_lineBegin advances_lineEnd advances_succeeded
  advances_notMatch advances_map advances_text advances_many advances_option
  advances_seq advances_alt advances_lazy : advances.

(** The same over every parser built with the engine. *)
Lemma built_advances (leaf : Parser U -> Prop) p :
  (forall q, leaf q -> advances q) ->
  Built leaf p ->
  advances p.
Proof.
  intros Hleaf Hbuilt.
  induction Hbuilt using Built_mind
    with (P0 := fun parsers => Forall advances parsers);
    auto with advances.
  exact (advances_sep separator min p q IHHbuilt1 IHHbuilt2 H).
Qed.

(** C4. A success never carries an index before the one the parser was
    called with: for [str], [regexp], [char], [lineBegin], [lineEnd] and
    [notMatch] as they are, and for [map], [text], [many], [sep], [option],
    [seq], [alt] and [lazy] when it holds of the parsers they are applied
    to. *)
Theorem success_index_never_before :
  (forall value, @advances U (str value))
  /\ (forall re, @advances U (regexp re))
  /\ @advances U char
  /\ @advances U lineBegin
  /\ @advances U lineEnd
  /\ (forall p, advances (notMatch p))
  /\ (forall fn this, advances this -> advances (map fn this))
  /\ (forall this, advances this -> advances (text this))
  /\ (forall min this, advances this -> advances (many min this))
  /\ (forall separator min this q,
        advances this -> advances separator ->
        sep separator min this = inr q -> advances q)
  /\ (forall this, advances this -> advances (option this))
  /\ (forall parsers, Forall advances parsers -> advances (seq parsers))
  /\ (forall parsers, Forall advances parsers -> advances (alt parsers))
  /\ (forall fn : unit -> Parser U, advances (fn tt) -> advances (lazy fn)).
Proof.
  repeat split; auto with advances.
  apply advances_sep.
Qed.

(** *** Tracing *)

Lemma trace_blind_given p :
  (forall fuel input index state,
      outcome (given p fuel input index (set_trace (Some true) state))
      = outcome (given p fuel input index (set_trace (Some false) state))) ->
  trace_blind p.
Proof.
  intros H fuel input index state. now rewrite !handler_outcome.
Qed.

Lemma trace_blind_named n p : trace_blind p -> trace_blind (set_name n p).
Proof.
  intros H. apply trace_blind_given. simpl. intros fuel input index state.
  rewrite <- !handler_outcome. apply H.
Qed.

(** The primitives that do not call a parser do not read the state. *)
Lemma str_stateless value fuel input index (s1 s2 : State U) :
  handler (str value) fuel input index s1
  = handler (str value) fuel input index s2.
Proof. now rewrite !handler_unnamed. Qed.

Lemma trace_blind_str value : @trace_blind U (str value).
Proof. intros fuel input index state. reflexivity. Qed.

Lemma trace_blind_regexp re : @trace_blind U (regexp re).
Proof. apply trace_blind_given. reflexivity. Qed.

Lemma trace_blind_char : @trace_blind U char.
Proof. apply trace_blind_given. reflexivity. Qed.

Lemma trace_blind_succeeded value : @trace_blind U (succeeded value).
Proof. apply trace_blind_given. reflexivity. Qed.

Lemma trace_blind_lineBegin : @trace_blind U lineBegin.
Proof.
  intros fuel input index state. rewrite !lineBegin_unfold. unfold cr, lf.
  now rewrite (str_stateless [13%N] _ _ _ _ (set_trace (Some false) state)),
    (str_stateless [10%N] _ _ _ _ (set_trace (Some false) state)).
Qed.

Lemma trace_blind_lineEnd : @trace_blind U lineEnd.
Proof.
  intros fuel input index state. rewrite !lineEnd_unfold. unfold cr, lf.
  now rewrite (str_stateless [13%N] _ _ _ _ (set_trace (Some false) state)),
    (str_stateless [10%N] _ _ _ _ (set_trace (Some false) state)).
Qed.

Lemma trace_blind_notMatch p : trace_blind p -> trace_blind (notMatch p).
Proof.
  intros H. apply trace_blind_given. simpl. intros fuel input index state.
  now rewrite !outcome_bind, H.
Qed.

Lemma trace_blind_map fn this : trace_blind this -> trace_blind (map fn this).
Proof.
  intros H. apply trace_blind_given. simpl. intros fuel input index state.
  now rewrite !outcome_bind, H.
Qed.

Lemma trace_blind_text this : trace_blind this -> trace_blind (text this).
Proof.
  intros H. apply trace_blind_given. simpl. intros fuel input index state.
  now rewrite !outcome_bind, H.
Qed.

Lemma many_loop_trace_blind this :
  trace_blind this ->
  forall n fuel input index accum state,
    outcome (many_loop n this fuel input index accum
               (set_trace (Some true) state))
    = outcome (many_loop n this fuel input index accum
                 (set_trace (Some false) state)).
Proof.
  intros H n.
  induction n as [|n IH]; intros fuel input index accum state; simpl;
    destruct (index <? jslength input); try reflexivity.
  rewrite !outcome_bind, H.
  destruct (outcome _) as [[value next|]|]; try reflexivity. apply IH.
Qed.

Lemma trace_blind_many min this : trace_blind this -> trace_blind (many min this).
Proof.
  intros H. apply trace_blind_given. simpl. intros fuel input index state.
  now rewrite !outcome_bind, (many_loop_trace_blind this H).
Qed.

Lemma seq_loop_trace_blind parsers :
  Forall trace_blind parsers ->
  forall fuel input index accum state,
    outcome (seq_loop parsers fuel input index accum
               (set_trace (Some true) state))
    = outcome (seq_loop parsers fuel input index accum
                 (set_trace (Some false) state)).
Proof.
  induction 1 as [|p parsers Hp _ IH]; intros fuel input index accum state;
    simpl; [reflexivity|].
  rewrite !outcome_bind, Hp.
  destruct (outcome _) as [[value next|]|]; try reflexivity. apply IH.
Qed.

Lemma trace_blind_seq parsers :
  Forall trace_blind parsers -> trace_blind (seq parsers).
Proof.
  intros H. apply trace_blind_given. simpl. intros fuel input index state.
  now apply seq_loop_trace_blind.
Qed.

Lemma alt_loop_trace_blind parsers :
  Forall trace_blind parsers ->
  forall fuel input index state,
    outcome (alt_loop parsers fuel input index (set_trace (Some true) state))
    = outcome (alt_loop parsers fuel input index
                 (set_trace (Some false) state)).
Proof.
  induction 1 as [|p parsers Hp _ IH]; intros fuel input index state;
    simpl; [reflexivity|].
  rewrite !outcome_bind, Hp.
  destruct (outcome _) as [[value next|]|]; try reflexivity. apply IH.
Qed.

Lemma trace_blind_alt parsers :
  Forall trace_blind parsers -> trace_blind (alt parsers).
Proof.
  intros H. apply trace_blind_given. simpl. intros fuel input index state.
  now apply alt_loop_trace_blind.
Qed.

Lemma trace_blind_option this : trace_blind this -> trace_blind (option this).
Proof.
  intros H. apply trace_blind_alt.
  apply Forall_cons; [exact H|].
  apply Forall_cons; [apply trace_blind_succeeded | apply Forall_nil].
Qed.

Lemma trace_blind_sep separator min this q :
  trace_blind this -> trace_blind separator ->
  sep separator min this = inr q -> trace_blind q.
Proof.
  intros Hthis Hsep. unfold sep. destruct (min <? 1); [discriminate|].
  intros H. injection H as <-.
  apply trace_blind_map, trace_blind_seq.
  apply Forall_cons; [exact Hthis|].
  apply Forall_cons; [|apply Forall_nil].
  apply trace_blind_many. unfold select.
  apply trace_blind_map, trace_blind_seq.
  apply Forall_cons; [exact Hsep|].
  apply Forall_cons; [exact Hthis | apply Forall_nil].
Qed.

Lemma trace_blind_lazy (fn : unit -> Parser U) :
  trace_blind (fn tt) -> trace_blind (lazy fn).
Proof.
  intros H. apply trace_blind_given. simpl. exact H.
Qed.

#[local] Hint Resolve trace_blind_named trace_blind_str trace_blind_regexp
  trace_blind_char trace_blind_lineBegin trace_blind_lineEnd
  trace_blind_succeeded trace_blind_notMatch trace_blind_map trace_blind_text
  trace_blind_many trace_blind_option trace_blind_seq trace_blind_alt
  trace_blind_lazy : trace_blind.

Lemma built_trace_blind (leaf : Parser U -> Prop) p :
  (forall q, leaf q -> trace_blind q) ->
  Built leaf p ->
  trace_blind p.
Proof.
  intros Hleaf Hbuilt.
  induction Hbuilt using Built_mind
    with (P0 := fun parsers => Forall trace_blind parsers);
    auto with trace_blind.
  exact (trace_blind_sep separator min p q IHHbuilt1 IHHbuilt2 H).
Qed.

(** C6. Turning the trace flag on does not change a result: a parser built
    from the primitives and the combinators of the engine, named or not,
    returns the same outcome (success or failure, value, next index), or
    does not return, with [state.trace] true and with [state.trace] false,
    the rest of the state being the same. *)
Theorem trace_does_not_change_results p fuel input index state :
  Built (fun _ => False) p ->
  outcome (handler p fuel input index (set_trace (Some true) state))
  = outcome (handler p fuel input index (set_trace (Some false) state)).
Proof.
  intros Hbuilt. apply (built_trace_blind (fun _ => False)); [|exact Hbuilt].
  intros q [].
Qed.

(** *** Separated repeat *)

Lemma many_success min this fuel input index state l value next :
  handler (many min this) fuel input index state
  = Some (l, Success value next) ->
  exists accum, value = VArr accum /\ min <= Z.of_nat (length accum).
Proof.
  rewrite many_unfold. intros H.
  apply bind_some in H as (l1 & [latest accum] & l2 & _ & H & _).
  destruct (Z.ltb_spec (Z.of_nat (length accum)) min); [discriminate|].
  injection H as _ <- _. now exists accum.
Qed.

(** C10. [sep(separator, min)] with [min < 1] throws when it is called,
    before there is any input; so a parser it returns was built with
    [min >= 1], and each of its successes has one occurrence of the element
    parser at the start and [min] occurrences at least in all. *)
Theorem sep_checks_min separator min this :
  (min < 1 ->
   sep separator min this
   = inl (mkError "'min' must be a value greater than or equal to 1."))
  /\ (forall q,
        sep separator min this = inr q ->
        1 <= min
        /\ forall fuel input index state l value next,
             handler q fuel input index state = Some (l, Success value next) ->
             exists l1 first next1 rest,
               handler this fuel input index state
               = Some (l1, Success first next1)
               /\ value = VArr (first :: rest)
               /\ min <= Z.of_nat (length (first :: rest))).
Proof.
  unfold sep. destruct (Z.ltb_spec min 1) as [Hlt|Hge].
  - split; [reflexivity | discriminate].
  - split; [lia|]. intros q Hq. injection Hq as <-. split; [exact Hge|].
    intros fuel input index state l value next H.
    rewrite handler_unnamed in H by reflexivity. simpl in H.
    apply bind_some in H as (l1 & r & l2 & Hseq & H & _).
    destruct r as [pair next0|]; [|discriminate].
    injection H as _ <- _.
    rewrite handler_unnamed in Hseq by reflexivity. simpl in Hseq.
    apply bind_some in Hseq as (la & a & lb & Hthis & Hseq & _).
    destruct a as [first next1|]; [|discriminate].
    apply bind_some in Hseq as (lc & b & ld & Hmany & Hseq & _).
    destruct b as [others next2|]; [|discriminate].
    injection Hseq as _ <- _.
    apply many_success in Hmany as [accum [-> Hlen]].
    exists la, first, next1, accum. split; [exact Hthis|].
    split; [reflexivity|]. simpl length. lia.
Qed.

End WithState.

(** *** Runs on concrete inputs *)

Lemma str_literal_witness :
  handler (U:=unit) (str (js "abc")) 0%nat (js "ab") (Z.of_nat 0)
          (mkState None tt)
  = Some ([], Failure).
Proof.
  apply (str_literal (js "abc") 0%nat (js "ab") 0%nat (mkState None tt)).
  vm_compute. reflexivity.
Defined.

(** C8 fails on the code for a negative [min]: [many(-1)] at the end of
    the input returns the empty accumulation, not a failure. *)
Lemma many_at_end_negative_min :
  ~ (forall min (this : Parser unit) fuel input state,
        handler (many min this) fuel input (jslength input) state
        = Some ([], if min =? 0
                    then Success (VArr []) (jslength input)
                    else Failure)).
Proof.
  intros H.
  specialize (H (-1) char 0%nat (js "ab") (mkState None tt)).
  vm_compute in H. discriminate.
Qed.

(** C3 fails on the code: with [\r\n] taken first, no terminator ends
    between the [\r] and the [\n] of a pair, yet [lineBegin] succeeds
    there. *)
Lemma lineBegin_inside_pair :
  ~ (forall fuel input (i : nat) (state : State unit),
        handler lineBegin fuel input (Z.of_nat i) state
        = Some ([], if (i =? 0)%nat || after_newline input i
                    then Success VNull (Z.of_nat i)
                    else Failure)).
Proof.
  intros H.
  specialize (H 0%nat [13%N; 10%N] 1%nat (mkState None tt)).
  vm_compute in H. discriminate.
Qed.

(** C1 fails on the code: [lineBegin.many(0)] on the input "a" from index 0
    never returns, because [lineBegin] succeeds there without moving. *)
Lemma many_zero_width_never_returns :
  ~ exists fuel r,
      handler (U:=unit) (many 0 lineBegin) fuel (js "a") 0 (mkState None tt)
      = Some r.
Proof.
  intros [fuel [r H]]. rewrite many_unfold in H.
  rewrite (many_loop_stuck lineBegin (js "a") 0 (mkState None tt)) in H.
  - discriminate.
  - reflexivity.
  - intros f. exists [], VNull. apply lineBegin_at_start.
Qed.

Lemma many_terminates_witness :
  exists f r, forall fuel,
    (f <= fuel)%nat ->
    handler (U:=unit) (many 0 char) fuel (js "ab") 0 (mkState None tt) = Some r.
Proof.
  apply (many_terminates char 0 (js "ab") 0 (mkState None tt)).
  - apply char_returns.
  - apply char_consumes.
Defined.

Lemma sep_checks_min_witness :
  sep (U:=unit) (str (js ",")) 0 char
  = inl (mkError "'min' must be a value greater than or equal to 1.").
Proof.
  apply (proj1 (sep_checks_min (str (js ",")) 0 char)). lia.
Defined.

Lemma success_index_never_before_witness :
  advances (U:=unit) (many 0 char).
Proof.
  destruct (@success_index_never_before unit)
    as (_ & _ & Hchar & _ & _ & _ & _ & _ & Hmany & _).
  apply Hmany, Hchar.
Defined.

Lemma letters_built : Built (fun _ => False) letters.
Proof.
  unfold letters. apply built_named, built_many, built_named, built_char.
Defined.

Lemma trace_does_not_change_results_witness :
  outcome (handler letters 5%nat (js "ab") 0
             (set_trace (Some true) (mkState None tt)))
  = outcome (handler letters 5%nat (js "ab") 0
               (set_trace (Some false) (mkState None tt))).
Proof.
  apply (trace_does_not_change_results letters 5%nat (js "ab") 0
           (mkState None tt)).
  exact letters_built.
Defined.

(** With the flag on the rule writes its lines; the result is the same. *)
Example letters_traced :
  handler letters 5%nat (js "ab") 0 (mkState (Some true) tt)
  = Some ([TraceEnter 0 (js "letters");
           TraceEnter 0 (js "letter"); TraceMatch 0 1 (js "letter");
           TraceEnter 1 (js "letter"); TraceMatch 1 2 (js "letter");
           TraceMatch 0 2 (js "letters")],
          Success (VArr [VStr (js "a"); VStr (js "b")]) 2).
Proof. reflexivity. Qed.

Example letters_not_traced :
  handler letters 5%nat (js "ab") 0 (mkState (Some false) tt)
  = Some ([], Success (VArr [VStr (js "a"); VStr (js "b")]) 2).
Proof. reflexivity. Qed.

Example sep_three_of_two :
  match sep (U:=unit) (str (js ",")) 2 char with
  | inr q => handler q 9%nat (js "a,b,c") 0 (mkState None tt)
  | inl _ => None
  end
  = Some ([], Success (VArr [VStr (js "a"); VStr (js "b"); VStr (js "c")]) 5).
Proof. reflexivity. Qed.

Example sep_one_of_two :
  match sep (U:=unit) (str (js ",")) 2 char with
  | inr q => handler q 9%nat (js "a") 0 (mkState None tt)
  | inl _ => None
  end
  = Some ([], Failure).
Proof. reflexivity. Qed.

Example many_chars :
  handler (U:=unit) (many 0 char) 3%nat (js "abc") 0 (mkState None tt)
  = Some ([], Success (VArr [VStr (js "a"); VStr (js "b"); VStr (js "c")]) 3).
Proof. reflexivity. Qed.

Example optional_absent :
  handler (U:=unit) (option (str (js "x"))) 0%nat (js "ab") 0 (mkState None tt)
  = Some ([], Success VNull 0).
Proof. reflexivity. Qed.

Example line_begin_between :
  handler (U:=unit) lineBegin 0%nat [13%N; 10%N] 1 (mkState None tt)
  = Some ([], Success VNull 1).
Proof. reflexivity. Qed.

Example line_end_between :
  handler (U:=unit) lineEnd 0%nat [13%N; 10%N] 1 (mkState None tt)
  = Some ([], Success VNull 1).
Proof. reflexivity. Qed.

End CombinatorsFacts.

(** ** The hashtag matcher *)

Module HashtagFacts.
Import Hashtag.

Section Matcher.
Variable isAllowedAsBackChar : MatcherContext -> bool.
Variable match_LfMatcher : MatcherContext -> bool * MatcherContext.
Variable eof : MatcherContext -> bool.
Variable CharCode_hash : N.

Local Abbreviation scan := (scan_value match_LfMatcher eof).
Local Abbreviation matcher :=
  (hashtagMatcher isAllowedAsBackChar match_LfMatcher eof CharCode_hash).

Lemma all_digits_spec (value : jsstring) :
  all_digits value = true <-> value <> [] /\ forallb is_digit value = true.
Proof.
  destruct value as [|c value]; simpl.
  - split; [discriminate | intros [H _]; now elim H].
  - split; [intros H; split; [discriminate | exact H] | intros [_ H]; exact H].
Qed.

(** The matcher, once the character before and the hash sign are accepted:
    it scans a value and checks it. *)
Lemma hashtagMatcher_scanned fuel ctx :
  isAllowedAsBackChar ctx = true ->
  charCodeAt (input ctx) (pos ctx) = Some CharCode_hash ->
  matcher fuel ctx
  = match scan fuel (advance ctx) [] with
    | None => None
    | Some (value, ctx') =>
        if (jslength value =? 0) || all_digits value
        then Some (Fail, ctx')
        else Some (Ok (HASHTAG value), ctx')
    end.
Proof.
  intros Hback Hhash. unfold hashtagMatcher.
  now rewrite Hback, Hhash, N.eqb_refl.
Qed.

(** C9. A hashtag the matcher returns has a value that is not empty and not
    made of the digits 0 to 9 only; when the value it scanned is empty or
    made of digits only, it fails. *)
Theorem hashtag_never_degenerate fuel ctx :
  (forall node ctx',
      matcher fuel ctx = Some (Ok node, ctx') ->
      exists value,
        node = HASHTAG value
        /\ scan fuel (advance ctx) [] = Some (value, ctx')
        /\ value <> []
        /\ forallb is_digit value = false)
  /\ (forall value ctx',
        isAllowedAsBackChar ctx = true ->
        charCodeAt (input ctx) (pos ctx) = Some CharCode_hash ->
        scan fuel (advance ctx) [] = Some (value, ctx') ->
        value = [] \/ forallb is_digit value = true ->
        matcher fuel ctx = Some (Fail, ctx')).
Proof.
  split.
  - intros node ctx'. unfold hashtagMatcher.
    destruct (isAllowedAsBackChar ctx); [|discriminate]. simpl.
    destruct (charCodeAt (input ctx) (pos ctx)) as [c|]; [|discriminate].
    destruct (N.eqb c CharCode_hash); [|discriminate]. simpl.
    destruct (scan fuel (advance ctx) []) as [[value ctx1]|]; [|discriminate].
    destruct value as [|c0 value].
    + discriminate.
    + change (jslength (c0 :: value) =? 0) with
        (Z.of_nat (S (length value)) =? 0).
      destruct (Z.eqb_spec (Z.of_nat (S (length value))) 0) as [H0|_];
        [lia|].
      cbn [orb]. unfold all_digits.
      destruct (forallb is_digit (c0 :: value)) eqn:Hd; [discriminate|].
      intros H. injection H as <- <-.
      exists (c0 :: value). repeat split; congruence.
  - intros value ctx' Hback Hhash Hscan Hbad.
    rewrite (hashtagMatcher_scanned fuel ctx Hback Hhash), Hscan.
    destruct Hbad as [-> | Hd]; [reflexivity|].
    destruct value as [|c value]; [reflexivity|].
    unfold all_digits. rewrite Hd. now rewrite orb_true_r.
Qed.

(** The scan returns when the end of input is recognised and a failed line
    feed matcher leaves the context as it was. *)
Lemma scan_value_returns :
  (forall ctx, jslength (input ctx) <= pos ctx -> eof ctx = true) ->
  (forall ctx ctx', match_LfMatcher ctx = (false, ctx') -> ctx' = ctx) ->
  forall fuel ctx value,
    (Z.to_nat (jslength (input ctx) - pos ctx) < fuel)%nat ->
    exists r, scan fuel ctx value = Some r.
Proof.
  intros Heof Hlf fuel.
  induction fuel as [|fuel IH]; intros ctx value Hfuel; [lia|]. simpl.
  destruct (is_separator _); [eauto|].
  destruct (match_LfMatcher ctx) as [[|] ctx1] eqn:Hm; [eauto|].
  apply Hlf in Hm. subst ctx1.
  destruct (eof ctx) eqn:He; [eauto|].
  apply IH. simpl.
  destruct (Z.leb_spec (jslength (input ctx)) (pos ctx)) as [Hend|Hin].
  - apply Heof in Hend. congruence.
  - lia.
Qed.

End Matcher.

Lemma hashtag_never_degenerate_witness :
  exists value,
    HASHTAG (js "abc") = HASHTAG value
    /\ scan_value lf_matcher at_end 4
         (advance (mkContext (js "#abc def") 0)) []
       = Some (value, mkContext (js "#abc def") 4)
    /\ value <> []
    /\ forallb is_digit value = false.
Proof.
  apply (proj1 (hashtag_never_degenerate any_back_char lf_matcher at_end 35%N
                  4 (mkContext (js "#abc def") 0))).
  reflexivity.
Defined.

Example hashtag_of_digits_fails :
  run_hashtag 10 (js "#123") 0 = Some (Fail, mkContext (js "#123") 4).
Proof. reflexivity. Qed.

Example hashtag_empty_fails :
  run_hashtag 10 (js "# a") 0 = Some (Fail, mkContext (js "# a") 1).
Proof. reflexivity. Qed.

Example hashtag_digits_and_letter :
  run_hashtag 10 (js "#12a") 0
  = Some (Ok (HASHTAG (js "12a")), mkContext (js "#12a") 4).
Proof. reflexivity. Qed.

End HashtagFacts.

(** ** The link rule *)

Module LinkFacts.
Import Link.

Section Rule.
Variable MfmInline : Type.
Variable sv : Services MfmInline.

(** The flag after the rule: false once the label was reached, as it was
    before otherwise. *)
Lemma linkParser_flag fuel ctx r ctx' :
  keeps_flag sv ->
  linkParser sv fuel ctx = Some (r, ctx') ->
  inLink ctx' = if reaches_label sv ctx then false else inLink ctx.
Proof.
  intros [Hchar Hstr Hchoice]. unfold linkParser, reaches_label.
  pose proof (Hchar (question (CharCode sv)) ctx) as H1.
  destruct (ctx_char sv (question (CharCode sv)) ctx) as [silent ctx1].
  simpl in H1 |- *.
  pose proof (Hchar (openBracket (CharCode sv)) ctx1) as H2.
  destruct (ctx_char sv (openBracket (CharCode sv)) ctx1) as [ok ctx2].
  simpl in H2 |- *.
  destruct ok; simpl.
  2:{ intros H. injection H as _ <-. congruence. }
  destruct (label_loop sv fuel (set_inLink true ctx2) [])
    as [[label ctx4]|]; [|discriminate].
  destruct (Z.of_nat (length label) <? 1).
  { intros H. injection H as _ <-. reflexivity. }
  pose proof (Hstr (js "](") (set_inLink false ctx4)) as H6.
  destruct (ctx_str sv (js "](") (set_inLink false ctx4)) as [ok6 ctx6].
  simpl in H6.
  destruct ok6; simpl.
  2:{ intros H. injection H as _ <-. exact H6. }
  pose proof (Hchoice ctx6) as H7.
  destruct (ctx_choice_url sv ctx6) as [[url|] ctx7]; simpl in H7.
  2:{ intros H. injection H as _ <-. congruence. }
  pose proof (Hchar (closeParen (CharCode sv)) ctx7) as H8.
  destruct (ctx_char sv (closeParen (CharCode sv)) ctx7) as [ok8 ctx8].
  simpl in H8.
  destruct ok8; simpl; intros H; injection H as _ <-; congruence.
Qed.

(** C2, as the code has it. When the link rule returns, the flag is false
    if the rule reached its label (the opening bracket was there), on the
    success path and on every failure path after it, and is what it was
    before if the rule failed at the opening bracket; so a rule entered with
    the flag false returns with the flag false. *)
Theorem link_flag_on_return fuel ctx r ctx' :
  keeps_flag sv ->
  linkParser sv fuel ctx = Some (r, ctx') ->
  inLink ctx'
  = (if reaches_label sv ctx then false else inLink ctx)
  /\ (inLink ctx = false -> inLink ctx' = inLink ctx).
Proof.
  intros Hkeeps Hrun.
  pose proof (linkParser_flag fuel ctx r ctx' Hkeeps Hrun) as H.
  split; [exact H|]. intros Hoff. rewrite H, Hoff.
  now destruct (reaches_label sv ctx).
Qed.

End Rule.

Lemma cursor_keeps_flag : keeps_flag cursor_services.
Proof.
  constructor; simpl.
  - intros code ctx. unfold cursor_char.
    destruct (char_at code ctx); reflexivity.
  - intros value ctx. unfold cursor_str.
    destruct (_ && _); reflexivity.
  - intros ctx. unfold cursor_url.
    destruct (url_units _); reflexivity.
Qed.

Example link_parsed :
  linkParser cursor_services 10 (mkContext (js "?[ab](u)") 0 false)
  = Some (Ok (LINK true (js "u") (js "ab")),
          mkContext (js "?[ab](u)") 8 false).
Proof. reflexivity. Qed.

Example link_parsed_flag_on :
  linkParser cursor_services 10 (mkContext (js "[ab](u)") 0 true)
  = Some (Ok (LINK false (js "u") (js "ab")),
          mkContext (js "[ab](u)") 7 false).
Proof. reflexivity. Qed.

Example link_without_target_flag_on :
  linkParser cursor_services 10 (mkContext (js "[ab]") 0 true)
  = Some (Fail, mkContext (js "[ab]") 3 false).
Proof. reflexivity. Qed.

Example link_without_bracket_flag_on :
  linkParser cursor_services 10 (mkContext (js "ab") 0 true)
  = Some (Fail, mkContext (js "ab") 0 true).
Proof. reflexivity. Qed.

(** C2 fails on the code: a link rule entered with the flag true that
    reaches its label returns with the flag false, here on its success
    path. *)
Lemma link_flag_not_restored :
  ~ (forall fuel ctx r ctx',
        linkParser cursor_services fuel ctx = Some (r, ctx') ->
        inLink ctx' = inLink ctx).
Proof.
  intros H.
  specialize (H 10%nat (mkContext (js "[ab](u)") 0 true) _ _
                link_parsed_flag_on).
  discriminate.
Qed.

Lemma link_flag_on_return_witness :
  inLink (mkContext (js "[ab]") 3 false)
  = (if reaches_label cursor_services (mkContext (js "[ab]") 0 false)
     then false else false)
  /\ (false = false -> inLink (mkContext (js "[ab]") 3 false) = false).
Proof.
  apply (link_flag_on_return N cursor_services 10
           (mkContext (js "[ab]") 0 false) Fail
           (mkContext (js "[ab]") 3 false)).
  - exact cursor_keeps_flag.
  - reflexivity.
Defined.

End LinkFacts.

(** ** Laws of the combinators *)

Module CombinatorsLaws.
Import Combinators Notions JsStringFacts CombinatorsFacts.
Local Open Scope run_scope.

Create HintDb quiet.

Section WithState.
Context {U : Type}.
Implicit Types (p this separator : Parser U) (parsers : list (Parser U)).
Implicit Types (state : State U) (input : jsstring).

(** *** Value transformation *)

(** X1. [map] with the identity gives the parser back, and two [map]s are one
    [map] with the composed function: the same result and the same lines. *)
Theorem map_functor this (fn1 fn2 : Value -> Value) fuel input index state :
  handler (map (fun v => v) this) fuel input index state
  = handler this fuel input index state
  /\ handler (map fn2 (map fn1 this)) fuel input index state
     = handler (map (fun v => fn2 (fn1 v)) this) fuel input index state.
Proof.
  rewrite !(handler_unnamed (map _ _)) by reflexivity. simpl.
  rewrite (handler_unnamed (map fn1 this)) by reflexivity. simpl.
  unfold bind, ret, success.
  destruct (handler this fuel input index state) as [[l [v next|]]|];
    simpl; rewrite ?app_nil_r; split; reflexivity.
Qed.

(** *** Sequence *)

Lemma seq_loop_accum parsers :
  forall fuel input index accum state,
    seq_loop parsers fuel input index accum state
    = (r <- seq_loop parsers fuel input index [] state ;;
       match r with
       | Success (VArr values) next => ret (success next (VArr (accum ++ values)))
       | _ => ret failure
       end).
Proof.
  induction parsers as [|p parsers IH]; intros fuel input index accum state.
  - simpl. now rewrite app_nil_r.
  - simpl. destruct (handler p fuel input index state) as [[l [v next|]]|];
      simpl; rewrite ?app_nil_r; try reflexivity.
    rewrite (IH fuel input next (accum ++ [v]) state).
    rewrite (IH fuel input next [v] state).
    unfold bind, ret, success, failure.
    destruct (seq_loop parsers fuel input next [] state)
      as [[l2 [[| |z|s|values|fields] next2|]]|]; simpl; rewrite ?app_nil_r;
      try reflexivity.
    now rewrite <- app_assoc.
Qed.

Lemma seq_unfold parsers fuel input index state :
  handler (seq parsers) fuel input index state
  = seq_loop parsers fuel input index [] state.
Proof. now rewrite handler_unnamed. Qed.

Lemma seq_loop_values parsers :
  forall fuel input index accum state l value next,
    seq_loop parsers fuel input index accum state
    = Some (l, Success value next) ->
    exists values,
      value = VArr (accum ++ values) /\ length values = length parsers.
Proof.
  induction parsers as [|p parsers IH];
    intros fuel input index accum state l value next; simpl; intros H.
  - injection H as _ <- _. exists []. now rewrite app_nil_r.
  - apply bind_some in H as (l1 & r & l2 & _ & H & _).
    destruct r as [v next'|]; [|discriminate].
    apply IH in H as [values [-> Hlen]].
    exists (v :: values). rewrite <- app_assoc. simpl. auto.
Qed.

(** X2. A success of [seq] carries an array with one value for each parser. *)
Theorem seq_one_value_each parsers fuel input index state l value next :
  handler (seq parsers) fuel input index state = Some (l, Success value next) ->
  exists values, value = VArr values /\ length values = length parsers.
Proof.
  rewrite seq_unfold. intros H.
  apply seq_loop_values in H as [values [-> Hlen]]. now exists values.
Qed.

Lemma seq_loop_app parsers1 parsers2 :
  forall fuel input index accum state,
    seq_loop (parsers1 ++ parsers2) fuel input index accum state
    = (r <- seq_loop parsers1 fuel input index accum state ;;
       match r with
       | Success (VArr values) next =>
           seq_loop parsers2 fuel input next values state
       | _ => ret failure
       end).
Proof.
  induction parsers1 as [|p parsers1 IH];
    intros fuel input index accum state; simpl.
  - unfold bind, ret, success.
    destruct (seq_loop parsers2 fuel input index accum state) as [[l r]|];
      reflexivity.
  - destruct (handler p fuel input index state) as [[l [v next|]]|];
      simpl; rewrite ?app_nil_r; try reflexivity.
    rewrite IH. unfold bind.
    destruct (seq_loop parsers1 fuel input next (accum ++ [v]) state)
      as [[l1 [[| |z|s|values|fields] next1|]]|]; simpl;
      rewrite ?app_nil_r, ?app_assoc; try reflexivity.
    destruct (seq_loop parsers2 fuel input next1 values state) as [[l2 r2]|];
      simpl; [|reflexivity].
    now rewrite app_assoc.
Qed.

(** X3. [seq] of two lists of parsers put end to end is [seq] of the first
    list, then, from where it ended, [seq] of the second list, with the two
    arrays of values put end to end; it fails as soon as one of them
    fails. *)
Theorem seq_app parsers1 parsers2 fuel input index state :
  handler (seq (parsers1 ++ parsers2)) fuel input index state
  = (r1 <- handler (seq parsers1) fuel input index state ;;
     match r1 with
     | Success (VArr values1) next1 =>
         r2 <- handler (seq parsers2) fuel input next1 state ;;
         match r2 with
         | Success (VArr values2) next2 =>
             ret (success next2 (VArr (values1 ++ values2)))
         | _ => ret failure
         end
     | _ => ret failure
     end).
Proof.
  rewrite !seq_unfold, seq_loop_app. unfold bind.
  destruct (seq_loop parsers1 fuel input index [] state)
    as [[l1 [[| |z|s|values1|fields] next1|]]|]; try reflexivity.
  now rewrite seq_unfold, (seq_loop_accum parsers2 fuel input next1 values1).
Qed.

(** *** Ordered choice *)

Lemma alt_unfold parsers fuel input index state :
  handler (alt parsers) fuel input index state
  = alt_loop parsers fuel input index state.
Proof. now rewrite handler_unnamed. Qed.

(** X4. [alt] of two lists of parsers put end to end is [alt] of the first
    list and, only when that fails, [alt] of the second list at the same
    index. *)
Theorem alt_app parsers1 parsers2 fuel input index state :
  handler (alt (parsers1 ++ parsers2)) fuel input index state
  = (r1 <- handler (alt parsers1) fuel input index state ;;
     match r1 with
     | Success _ _ => ret r1
     | Failure => handler (alt parsers2) fuel input index state
     end).
Proof.
  rewrite !alt_unfold.
  induction parsers1 as [|p parsers1 IH]; simpl.
  - unfold bind, ret.
    destruct (alt_loop parsers2 fuel input index state) as [[l r]|];
      reflexivity.
  - rewrite IH. unfold bind, ret.
    destruct (handler p fuel input index state) as [[l [v next|]]|];
      simpl; rewrite ?app_nil_r; try reflexivity.
    destruct (alt_loop parsers1 fuel input index state)
      as [[l1 [v1 next1|]]|]; simpl; rewrite ?app_nil_r; try reflexivity.
    destruct (alt_loop parsers2 fuel input index state) as [[l2 r2]|];
      simpl; [|reflexivity].
    now rewrite app_assoc.
Qed.

(** *** Repeat *)

Lemma many_loop_greedy this :
  forall n fuel input index accum state l latest accum',
    many_loop n this fuel input index accum state = Some (l, (latest, accum')) ->
    jslength input <= latest
    \/ exists l', handler this fuel input latest state = Some (l', Failure).
Proof.
  intros n.
  induction n as [|n IH]; intros fuel input index accum state l latest accum';
    simpl; destruct (Z.ltb_spec index (jslength input)) as [Hin|Hout];
    intros H; try discriminate;
    try (injection H as _ <- _; now left).
  apply bind_some in H as (l1 & r & l2 & Hr & H & _).
  destruct r as [value next|].
  - eapply IH, H.
  - injection H as _ <- _. right. now exists l1.
Qed.

(** X5. [many] is greedy: when it succeeds, it holds at least [min] values and
    it stopped either at or after the end of the input or at an index where
    its parser fails. *)
Theorem many_greedy min this fuel input index state l value next :
  handler (many min this) fuel input index state
  = Some (l, Success value next) ->
  exists accum,
    value = VArr accum
    /\ min <= Z.of_nat (length accum)
    /\ (jslength input <= next
        \/ exists l', handler this fuel input next state = Some (l', Failure)).
Proof.
  rewrite many_unfold. intros H.
  apply bind_some in H as (l1 & [latest accum] & l2 & Hloop & H & _).
  destruct (Z.ltb_spec (Z.of_nat (length accum)) min); [discriminate|].
  injection H as _ <- <-. exists accum. repeat split; [assumption|].
  eapply many_loop_greedy, Hloop.
Qed.

(** X6. When the parser fails at once, [many] holds nothing and stays where it
    was: an empty success for [min <= 0], a failure for a positive [min]. *)
Theorem many_none_matched min this fuel input index state :
  (0 < fuel)%nat ->
  outcome (handler this fuel input index state) = Some Failure ->
  outcome (handler (many min this) fuel input index state)
  = Some (if 0 <? min then Failure else Success (VArr []) index).
Proof.
  intros Hfuel Hfail. rewrite many_unfold, outcome_bind.
  destruct fuel as [|n]; [lia|]. simpl many_loop.
  destruct (index <? jslength input).
  - rewrite outcome_bind, Hfail. simpl. now destruct (0 <? min).
  - simpl. now destruct (0 <? min).
Qed.

Lemma skipn_nth (text : jsstring) (i : nat) c :
  nth_error text i = Some c -> skipn i text = c :: skipn (S i) text.
Proof.
  revert text. induction i as [|i IH]; intros [|x text]; simpl;
    try discriminate.
  - intros H. now injection H as ->.
  - apply IH.
Qed.

Lemma many_loop_char fuel input state :
  forall n (i : nat) accum,
    (i <= length input)%nat ->
    (length input - i <= n)%nat ->
    many_loop n char fuel input (Z.of_nat i) accum state
    = Some ([], (jslength input, accum ++ units (skipn i input))).
Proof.
  intros n. induction n as [|n IH]; intros i accum Hi Hn.
  - replace i with (length input) by lia.
    rewrite many_loop_at_end by (unfold jslength; lia).
    now rewrite skipn_all, app_nil_r.
  - destruct (Nat.eq_dec i (length input)) as [->|Hne].
    + rewrite many_loop_at_end by (unfold jslength; lia).
      now rewrite skipn_all, app_nil_r.
    + simpl.
      destruct (Z.ltb_spec (Z.of_nat i) (jslength input)) as [_|Hout];
        [|unfold jslength in Hout; lia].
      rewrite char_run.
      destruct (Z.ltb_spec (jslength input - Z.of_nat i) 1) as [Hshort|_];
        [unfold jslength in Hshort; lia|].
      simpl.
      destruct (nth_error input i) as [c|] eqn:Hc.
      2:{ apply nth_error_None in Hc. lia. }
      unfold charAt.
      replace ((0 <=? Z.of_nat i) && (Z.of_nat i <? jslength input))
        with true
        by (symmetry; apply andb_true_iff; split;
            [apply Z.leb_le | apply Z.ltb_lt]; unfold jslength; lia).
      rewrite Nat2Z.id, Hc.
      replace (Z.of_nat i + 1) with (Z.of_nat (S i)) by lia.
      rewrite IH by lia.
      rewrite (skipn_nth input i c Hc). simpl units.
      now rewrite <- app_assoc.
Qed.

(** X7. [char.many(min)] from a position of the input takes all the rest: with
    fuel for one round per code unit it returns every remaining code unit
    as a string of its own and ends at [input.length]; it fails only when
    fewer than [min] code units remain. *)
Theorem many_char_takes_all min fuel input (i : nat) state :
  (i <= length input)%nat ->
  (length input - i <= fuel)%nat ->
  handler (many min char) fuel input (Z.of_nat i) state
  = Some ([], if Z.of_nat (length input - i) <? min
              then Failure
              else Success (VArr (units (skipn i input))) (jslength input)).
Proof.
  intros Hi Hfuel. rewrite many_unfold, many_loop_char by assumption.
  simpl. unfold units. rewrite length_map, length_skipn.
  now destruct (Z.of_nat (length input - i) <? min).
Qed.

(** *** Line terminators *)

(** X9. [newline] takes [\r\n] as one terminator when both are there, else a
    single [\r] or [\n], else fails; and [lineEnd] succeeds exactly at the
    end of the input and where [newline] succeeds. *)
Theorem newline_priority fuel input (i : nat) state :
  handler newline fuel input (Z.of_nat i) state
  = Some ([], if starts_with_at input i [13%N; 10%N]
              then Success (VStr [13%N; 10%N]) (Z.of_nat i + 2)
              else if starts_with_at input i [13%N]
              then Success (VStr [13%N]) (Z.of_nat i + 1)
              else if starts_with_at input i [10%N]
              then Success (VStr [10%N]) (Z.of_nat i + 1)
              else Failure)
  /\ handler lineEnd fuel input (Z.of_nat i) state
     = Some ([], if (Z.of_nat i =? jslength input)
                    || match handler newline fuel input (Z.of_nat i) state with
                       | Some (_, r) => is_success r
                       | None => false
                       end
                 then Success VNull (Z.of_nat i)
                 else Failure).
Proof.
  assert (Hnl : handler newline fuel input (Z.of_nat i) state
    = Some ([], if starts_with_at input i [13%N; 10%N]
              then Success (VStr [13%N; 10%N]) (Z.of_nat i + 2)
              else if starts_with_at input i [13%N]
              then Success (VStr [13%N]) (Z.of_nat i + 1)
              else if starts_with_at input i [10%N]
              then Success (VStr [10%N]) (Z.of_nat i + 1)
              else Failure)).
  { unfold newline. rewrite alt_unfold. unfold crlf, cr, lf. simpl alt_loop.
    rewrite !str_run.
    destruct (starts_with_at input i [13%N; 10%N]); [reflexivity|].
    destruct (starts_with_at input i [13%N]); [reflexivity|].
    destruct (starts_with_at input i [10%N]); reflexivity. }
  split; [exact Hnl|].
  rewrite Hnl, lineEnd_run, terminator_at_some, starts_with_two.
  destruct (Z.of_nat i =? jslength input); [reflexivity|].
  destruct (starts_with_at input i [13%N]),
    (starts_with_at input (S i) [10%N]),
    (starts_with_at input i [10%N]); reflexivity.
Qed.

(** *** Lookahead *)

(** X10. [notMatch] twice is a lookahead: it succeeds exactly when the parser
    succeeds, with [null], at the index it was called with. *)
Theorem notMatch_twice p fuel input index state :
  handler (notMatch (notMatch p)) fuel input index state
  = (r <- handler p fuel input index state ;;
     ret (if is_success r then success index VNull else failure)).
Proof.
  rewrite (handler_unnamed (notMatch (notMatch p))) by reflexivity. simpl.
  rewrite (handler_unnamed (notMatch p)) by reflexivity. simpl.
  unfold bind, ret.
  destruct (handler p fuel input index state) as [[l [v next|]]|];
    simpl; rewrite ?app_nil_r; reflexivity.
Qed.

(** *** Matched text *)

Lemma slice_inside input (i j : nat) :
  (i <= j <= length input)%nat ->
  slice input (Z.of_nat i) (Z.of_nat j) = firstn (j - i) (skipn i input).
Proof.
  intros H. unfold slice, substring.
  destruct (Z.ltb_spec (Z.of_nat i) 0); [lia|].
  destruct (Z.ltb_spec (Z.of_nat j) 0); [lia|].
  replace (Z.min (Z.of_nat i) (jslength input)) with (Z.of_nat i)
    by (unfold jslength; lia).
  replace (Z.min (Z.of_nat j) (jslength input)) with (Z.of_nat j)
    by (unfold jslength; lia).
  destruct (Z.leb_spec (Z.of_nat j) (Z.of_nat i)).
  - replace (j - i)%nat with 0%nat by lia. reflexivity.
  - rewrite Nat2Z.id. f_equal. lia.
Qed.

(** X11. [text()] gives the part of the input its parser went over: when the
    parser succeeds from position [i] to position [j] of the input, the
    value is the [j - i] code units from [i]. *)
Theorem text_is_consumed_input this fuel input (i j : nat) state l value :
  (i <= j <= length input)%nat ->
  handler this fuel input (Z.of_nat i) state
  = Some (l, Success value (Z.of_nat j)) ->
  handler (text this) fuel input (Z.of_nat i) state
  = Some (l, Success (VStr (firstn (j - i) (skipn i input))) (Z.of_nat j))
  /\ length (firstn (j - i) (skipn i input)) = (j - i)%nat.
Proof.
  intros Hij Hrun. split.
  - rewrite handler_unnamed by reflexivity. simpl. rewrite Hrun. simpl.
    now rewrite app_nil_r, slice_inside.
  - rewrite length_firstn, length_skipn. lia.
Qed.

(** X12. The text of a literal is the literal: [str(s).text()] returns what
    [str(s)] returns. *)
Theorem text_of_literal value fuel input (i : nat) state :
  handler (text (str value)) fuel input (Z.of_nat i) state
  = handler (str value) fuel input (Z.of_nat i) state.
Proof.
  rewrite (handler_unnamed (text _)) by reflexivity. simpl.
  rewrite str_run.
  destruct (starts_with_at input i value) eqn:Hs; [|reflexivity].
  simpl. apply starts_with_at_spec in Hs as [before [after [-> <-]]].
  unfold jslength. rewrite <- Nat2Z.inj_add.
  rewrite slice_inside by (rewrite !length_app; lia).
  rewrite skipn_app, skipn_all, Nat.sub_diag. simpl.
  replace (length before + length value - length before)%nat
    with (length value) by lia.
  rewrite firstn_app, firstn_all, Nat.sub_diag. simpl.
  now rewrite app_nil_r.
Qed.

(** *** Separated repeat *)

(** A separator and an element, keeping the element. *)
Lemma separated_element separator this fuel input index state :
  outcome (handler (select 1 (seq [separator; this])) fuel input index state)
  = match outcome (handler separator fuel input index state) with
    | Some (Success _ next) =>
        match outcome (handler this fuel input next state) with
        | Some (Success value next') => Some (Success value next')
        | Some Failure => Some Failure
        | None => None
        end
    | Some Failure => Some Failure
    | None => None
    end.
Proof.
  unfold select. rewrite handler_outcome. simpl.
  rewrite outcome_bind, handler_outcome. simpl. rewrite outcome_bind.
  destruct (outcome (handler separator fuel input index state))
    as [[sv next|]|]; try reflexivity.
  rewrite outcome_bind.
  destruct (outcome (handler this fuel input next state))
    as [[v next'|]|]; reflexivity.
Qed.

(** X13. One element and nothing more: when the element parser succeeds and,
    where it ended, the input is over, or the separator fails, or the
    separator succeeds but no element follows it, [sep(separator, 1)]
    returns that one element and ends where the element ended (a trailing
    separator is not taken); with a larger [min] it fails. *)
Theorem sep_one_element separator min this q fuel input index state
    l1 first next1 :
  sep separator min this = inr q ->
  (0 < fuel)%nat ->
  handler this fuel input index state = Some (l1, Success first next1) ->
  jslength input <= next1
  \/ outcome (handler separator fuel input next1 state) = Some Failure
  \/ (exists sv next2,
        outcome (handler separator fuel input next1 state)
        = Some (Success sv next2)
        /\ outcome (handler this fuel input next2 state) = Some Failure) ->
  outcome (handler q fuel input index state)
  = Some (if 1 <? min then Failure else Success (VArr [first]) next1).
Proof.
  unfold sep. destruct (Z.ltb_spec min 1) as [|Hmin]; [discriminate|].
  intros Hq Hfuel Hfirst Hrest. injection Hq as <-.
  rewrite handler_outcome. simpl. rewrite outcome_bind, handler_outcome.
  simpl. rewrite outcome_bind, Hfirst. simpl. rewrite outcome_bind.
  assert (Hmany :
    outcome (handler (many (min - 1) (select 1 (seq [separator; this])))
               fuel input next1 state)
    = Some (if 0 <? min - 1 then Failure else Success (VArr []) next1)).
  { destruct Hrest as [Hend | Hrest].
    - rewrite many_unfold, many_loop_at_end by assumption. simpl.
      now destruct (0 <? min - 1).
    - apply many_none_matched; [assumption|].
      rewrite separated_element.
      destruct Hrest as [-> | [sv [next2 [-> ->]]]]; reflexivity. }
  rewrite Hmany.
  destruct (Z.ltb_spec 0 (min - 1)), (Z.ltb_spec 1 min); try lia; reflexivity.
Qed.

(** *** Repeat over a parser that does not move *)

Lemma many_loop_stays this fuel input index state :
  index < jslength input ->
  (exists value,
      outcome (handler this fuel input index state)
      = Some (Success value index)) ->
  forall n accum, many_loop n this fuel input index accum state = None.
Proof.
  intros Hin [value Hstay] n.
  induction n as [|n IH]; intros accum; simpl;
    destruct (Z.ltb_spec index (jslength input)); try lia; [reflexivity|].
  destruct (handler this fuel input index state) as [[l r]|]; [|discriminate].
  simpl in Hstay. injection Hstay as ->. simpl. now rewrite IH.
Qed.

(** X8. [many] over an optional parser does not return when the parser fails
    at an index inside the input: [option()] succeeds there without moving
    and the loop has no way out. *)
Theorem many_of_option_never_returns min this fuel input index state :
  index < jslength input ->
  outcome (handler this fuel input index state) = Some Failure ->
  handler (many min (option this)) fuel input index state = None.
Proof.
  intros Hin Hfail. rewrite many_unfold.
  rewrite (many_loop_stays (option this) fuel input index state Hin);
    [reflexivity|].
  exists VNull. rewrite option_never_fails.
  destruct (handler this fuel input index state) as [[l [v next|]]|];
    try discriminate. reflexivity.
Qed.

(** *** Tracing off *)

Lemma handler_trace_off p fuel input index state :
  truthy (trace state) = false ->
  handler p fuel input index state = given p fuel input index state.
Proof. intros H. unfold handler. now rewrite H. Qed.

Lemma quiet_given p :
  (forall fuel input index state l r,
      truthy (trace state) = false ->
      given p fuel input index state = Some (l, r) -> l = []) ->
  quiet p.
Proof.
  intros H fuel input index state l r Hoff.
  rewrite handler_trace_off by assumption. now apply H.
Qed.

Lemma quiet_named n p : quiet p -> quiet (set_name n p).
Proof.
  intros H. apply quiet_given. simpl. intros fuel input index state l r Hoff.
  rewrite <- (handler_trace_off p) by assumption. now apply H.
Qed.

Lemma quiet_str value : @quiet U (str value).
Proof.
  apply quiet_given. simpl. intros _ input index _ l r _.
  destruct (_ <? _); [intros H; now injection H as <- _|].
  destruct (negb _); intros H; now injection H as <- _.
Qed.

Lemma quiet_regexp re : @quiet U (regexp re).
Proof.
  apply quiet_given. simpl. intros _ input index _ l r _.
  destruct (re _); intros H; now injection H as <- _.
Qed.

Lemma quiet_char : @quiet U char.
Proof.
  intros fuel input index state l r _. rewrite char_run.
  intros H. now injection H as <- _.
Qed.

Lemma quiet_succeeded value : @quiet U (succeeded value).
Proof.
  apply quiet_given. simpl. intros _ _ index _ l r _ H.
  now injection H as <- _.
Qed.

Lemma quiet_lineBegin : @quiet U lineBegin.
Proof.
  intros fuel input index state l r _. rewrite lineBegin_unfold.
  rewrite !(handler_unnamed cr), !(handler_unnamed lf) by reflexivity. simpl.
  destruct (index =? 0); [intros H; now injection H as <- _|].
  repeat (destruct (_ <? _) || destruct (negb _)); simpl;
    intros H; now injection H as <- _.
Qed.

Lemma quiet_lineEnd : @quiet U lineEnd.
Proof.
  intros fuel input index state l r _. rewrite lineEnd_unfold.
  rewrite !(handler_unnamed cr), !(handler_unnamed lf) by reflexivity. simpl.
  destruct (index =? jslength input); [intros H; now injection H as <- _|].
  repeat (destruct (_ <? _) || destruct (negb _)); simpl;
    intros H; now injection H as <- _.
Qed.

Lemma quiet_notMatch p : quiet p -> quiet (notMatch p).
Proof.
  intros Hp. apply quiet_given. simpl.
  intros fuel input index state l r Hoff H.
  apply bind_some in H as (l1 & a & l2 & Ha & H & ->).
  apply Hp in Ha; [|assumption]. subst l1. now injection H as <- _.
Qed.

Lemma quiet_map fn this : quiet this -> quiet (map fn this).
Proof.
  intros Hp. apply quiet_given. simpl.
  intros fuel input index state l r Hoff H.
  apply bind_some in H as (l1 & a & l2 & Ha & H & ->).
  apply Hp in Ha; [|assumption]. subst l1.
  destruct a; now injection H as <- _.
Qed.

Lemma quiet_text this : quiet this -> quiet (text this).
Proof.
  intros Hp. apply quiet_given. simpl.
  intros fuel input index state l r Hoff H.
  apply bind_some in H as (l1 & a & l2 & Ha & H & ->).
  apply Hp in Ha; [|assumption]. subst l1.
  destruct a; now injection H as <- _.
Qed.

Lemma many_loop_quiet this :
  quiet this ->
  forall n fuel input index accum state l r,
    truthy (trace state) = false ->
    many_loop n this fuel input index accum state = Some (l, r) ->
    l = [].
Proof.
  intros Hp n.
  induction n as [|n IH]; intros fuel input index accum state l r Hoff;
    simpl; destruct (index <? jslength input); intros H;
    try discriminate; try (now injection H as <- _).
  apply bind_some in H as (l1 & a & l2 & Ha & H & ->).
  apply Hp in Ha; [|assumption]. subst l1.
  destruct a as [value next|].
  - eapply IH; eassumption.
  - now injection H as <- _.
Qed.

Lemma quiet_many min this : quiet this -> quiet (many min this).
Proof.
  intros Hp fuel input index state l r Hoff. rewrite many_unfold. intros H.
  apply bind_some in H as (l1 & [latest accum] & l2 & Ha & H & ->).
  apply (many_loop_quiet this Hp) in Ha; [|assumption]. subst l1.
  destruct (_ <? _); now injection H as <- _.
Qed.

Lemma seq_loop_quiet parsers :
  Forall quiet parsers ->
  forall fuel input index accum state l r,
    truthy (trace state) = false ->
    seq_loop parsers fuel input index accum state = Some (l, r) ->
    l = [].
Proof.
  induction 1 as [|p parsers Hp _ IH];
    intros fuel input index accum state l r Hoff; simpl; intros H.
  - now injection H as <- _.
  - apply bind_some in H as (l1 & a & l2 & Ha & H & ->).
    apply Hp in Ha; [|assumption]. subst l1.
    destruct a as [value next|].
    + eapply IH; eassumption.
    + now injection H as <- _.
Qed.

Lemma quiet_seq parsers : Forall quiet parsers -> quiet (seq parsers).
Proof.
  intros Hall fuel input index state l r Hoff. rewrite seq_unfold.
  now apply seq_loop_quiet.
Qed.

Lemma alt_loop_quiet parsers :
  Forall quiet parsers ->
  forall fuel input index state l r,
    truthy (trace state) = false ->
    alt_loop parsers fuel input index state = Some (l, r) ->
    l = [].
Proof.
  induction 1 as [|p parsers Hp _ IH];
    intros fuel input index state l r Hoff; simpl; intros H.
  - now injection H as <- _.
  - apply bind_some in H as (l1 & a & l2 & Ha & H & ->).
    apply Hp in Ha; [|assumption]. subst l1.
    destruct a as [value next|].
    + now injection H as <- _.
    + eapply IH; eassumption.
Qed.

Lemma quiet_alt parsers : Forall quiet parsers -> quiet (alt parsers).
Proof.
  intros Hall fuel input index state l r Hoff. rewrite alt_unfold.
  now apply alt_loop_quiet.
Qed.

Lemma quiet_option this : quiet this -> quiet (option this).
Proof.
  intros H. apply quiet_alt.
  apply Forall_cons; [exact H|].
  apply Forall_cons; [apply quiet_succeeded | apply Forall_nil].
Qed.

Lemma quiet_sep separator min this q :
  quiet this -> quiet separator ->
  sep separator min this = inr q -> quiet q.
Proof.
  intros Hthis Hsep. unfold sep. destruct (min <? 1); [discriminate|].
  intros H. injection H as <-.
  apply quiet_map, quiet_seq.
  apply Forall_cons; [exact Hthis|].
  apply Forall_cons; [|apply Forall_nil].
  apply quiet_many. unfold select.
  apply quiet_map, quiet_seq.
  apply Forall_cons; [exact Hsep|].
  apply Forall_cons; [exact Hthis | apply Forall_nil].
Qed.

Lemma quiet_lazy (fn : unit -> Parser U) : quiet (fn tt) -> quiet (lazy fn).
Proof.
  intros H. apply quiet_given. simpl.
  intros fuel input index state l r Hoff. now apply H.
Qed.

#[local] Hint Resolve quiet_named quiet_str quiet_regexp quiet_char
  quiet_lineBegin quiet_lineEnd quiet_succeeded quiet_notMatch quiet_map
  quiet_text quiet_many quiet_option quiet_seq quiet_alt quiet_lazy : quiet.

(** X14. With [state.trace] off (false or absent) a parser built from the
    primitives and the combinators of the engine, named or not, writes no
    line at all. *)
Theorem no_line_when_trace_off p fuel input index state l r :
  Built (fun _ => False) p ->
  truthy (trace state) = false ->
  handler p fuel input index state = Some (l, r) ->
  l = [].
Proof.
  intros Hbuilt. revert fuel input index state l r. change (quiet p).
  induction Hbuilt using Built_mind
    with (P0 := fun parsers => Forall quiet parsers);
    auto with quiet.
  - contradiction.
  - exact (quiet_sep separator min p q IHHbuilt1 IHHbuilt2 H).
Qed.

End WithState.

(** *** Runs on concrete inputs *)

Lemma seq_one_value_each_witness :
  exists values,
    VArr [VStr (js "a"); VStr (js "b")] = VArr values
    /\ length values = length [@char unit; char].
Proof.
  apply (seq_one_value_each [char; char] 0%nat (js "ab") 0 (mkState None tt)
           [] (VArr [VStr (js "a"); VStr (js "b")]) 2).
  reflexivity.
Defined.

Lemma many_greedy_witness :
  exists accum,
    VArr [VStr (js "a"); VStr (js "a")] = VArr accum
    /\ 1 <= Z.of_nat (length accum)
    /\ (jslength (js "aab") <= 2
        \/ exists l',
             handler (U:=unit) (str (js "a")) 5%nat (js "aab") 2
                     (mkState None tt)
             = Some (l', Failure)).
Proof.
  apply (many_greedy 1 (str (js "a")) 5%nat (js "aab") 0 (mkState None tt)
           [] (VArr [VStr (js "a"); VStr (js "a")]) 2).
  reflexivity.
Defined.

Lemma many_none_matched_witness :
  outcome (handler (U:=unit) (many 0 (str (js "x"))) 1%nat (js "ab") 0
             (mkState None tt))
  = Some (if 0 <? 0 then Failure else Success (VArr []) 0).
Proof.
  apply (many_none_matched 0 (str (js "x")) 1%nat (js "ab") 0
           (mkState None tt)).
  - lia.
  - reflexivity.
Defined.

Lemma many_char_takes_all_witness :
  handler (U:=unit) (many 2 char) 2%nat (js "abc") (Z.of_nat 1)
          (mkState None tt)
  = Some ([], if Z.of_nat (length (js "abc") - 1) <? 2
              then Failure
              else Success (VArr (units (skipn 1 (js "abc"))))
                           (jslength (js "abc"))).
Proof.
  apply (many_char_takes_all 2 2%nat (js "abc") 1%nat (mkState None tt)).
  - simpl. lia.
  - simpl. lia.
Defined.

Lemma text_is_consumed_input_witness :
  handler (U:=unit) (text (seq [char; char])) 0%nat (js "abc") (Z.of_nat 1)
          (mkState None tt)
  = Some ([], Success (VStr (firstn (3 - 1) (skipn 1 (js "abc"))))
                      (Z.of_nat 3))
  /\ length (firstn (3 - 1) (skipn 1 (js "abc"))) = (3 - 1)%nat.
Proof.
  apply (text_is_consumed_input (seq [char; char]) 0%nat (js "abc")
           1%nat 3%nat (mkState None tt) []
           (VArr [VStr (js "b"); VStr (js "c")])).
  - simpl. lia.
  - reflexivity.
Defined.

Lemma sep_one_element_witness :
  outcome
    (handler (U:=unit)
       (map cons_result
          (seq [char;
                many (1 - 1) (select 1 (seq [str (js ","); char]))]))
       3%nat (js "a,") 0 (mkState None tt))
  = Some (if 1 <? 1 then Failure else Success (VArr [VStr (js "a")]) 1).
Proof.
  apply (sep_one_element (str (js ",")) 1 char _ 3%nat (js "a,") 0
           (mkState None tt) [] (VStr (js "a")) 1).
  - reflexivity.
  - lia.
  - reflexivity.
  - right. right. exists (VStr (js ",")), 2. split; reflexivity.
Defined.

Lemma many_of_option_never_returns_witness :
  handler (U:=unit) (many 0 (option (str (js "x")))) 7%nat (js "ab") 0
          (mkState None tt)
  = None.
Proof.
  apply (many_of_option_never_returns 0 (str (js "x")) 7%nat (js "ab") 0
           (mkState None tt)).
  - reflexivity.
  - reflexivity.
Defined.

Lemma no_line_when_trace_off_witness :
  [] = ([] : list TraceLine).
Proof.
  apply (no_line_when_trace_off letters 5%nat (js "ab") 0
           (mkState (Some false) tt) []
           (Success (VArr [VStr (js "a"); VStr (js "b")]) 2)).
  - exact letters_built.
  - reflexivity.
  - reflexivity.
Defined.

End CombinatorsLaws.

(** ** More on the hashtag matcher *)

Module HashtagLaws.
Import Hashtag Notions JsStringFacts.

Section Matcher.
Variable isAllowedAsBackChar : MatcherContext -> bool.
Variable match_LfMatcher : MatcherContext -> bool * MatcherContext.
Variable eof : MatcherContext -> bool.
Variable CharCode_hash : N.

Local Abbreviation scan := (scan_value match_LfMatcher eof).
Local Abbreviation matcher :=
  (hashtagMatcher isAllowedAsBackChar match_LfMatcher eof CharCode_hash).

(** A line feed matcher that fails leaves the context as it was. *)
Hypothesis lf_fail_keeps :
  forall ctx ctx', match_LfMatcher ctx = (false, ctx') -> ctx' = ctx.

Lemma charAt_unit (text : jsstring) (i : nat) c :
  nth_error text i = Some c -> charAt text (Z.of_nat i) = [c].
Proof.
  intros H. unfold charAt.
  assert (i < length text)%nat by (apply nth_error_Some; congruence).
  replace ((0 <=? Z.of_nat i) && (Z.of_nat i <? jslength text)) with true
    by (symmetry; apply andb_true_iff; split;
        [apply Z.leb_le | apply Z.ltb_lt]; unfold jslength; lia).
  now rewrite Nat2Z.id, H.
Qed.

Lemma charAt_outside (text : jsstring) (i : nat) :
  nth_error text i = None -> charAt text (Z.of_nat i) = [].
Proof.
  intros H. unfold charAt. rewrite Nat2Z.id, H.
  now destruct (_ && _).
Qed.

Lemma skipn_at (text : jsstring) (i : nat) c :
  nth_error text i = Some c -> skipn i text = c :: skipn (S i) text.
Proof.
  revert text. induction i as [|i IH]; intros [|x text]; simpl;
    try discriminate.
  - intros H. now injection H as ->.
  - apply IH.
Qed.

(** What the scan adds to the value is the text at the position, and holds
    no separator. *)
Lemma scan_value_text :
  forall fuel (i : nat) text value0 value ctx',
    scan fuel (mkContext text (Z.of_nat i)) value0 = Some (value, ctx') ->
    exists taken,
      value = value0 ++ taken
      /\ firstn (length taken) (skipn i text) = taken
      /\ no_separator taken = true.
Proof.
  intros fuel.
  induction fuel as [|fuel IH]; intros i text value0 value ctx'; simpl;
    [discriminate|].
  destruct (is_separator (charAt text (Z.of_nat i))) eqn:Hsep.
  { intros H. injection H as <- _. exists []. now rewrite app_nil_r. }
  destruct (match_LfMatcher (mkContext text (Z.of_nat i)))
    as [[|] ctx1] eqn:Hm.
  { intros H. injection H as <- _. exists []. now rewrite app_nil_r. }
  apply lf_fail_keeps in Hm. subst ctx1.
  destruct (eof (mkContext text (Z.of_nat i))).
  { intros H. injection H as <- _. exists []. now rewrite app_nil_r. }
  unfold advance. simpl input. simpl pos.
  replace (Z.of_nat i + 1) with (Z.of_nat (S i)) by lia.
  intros H. apply IH in H as [taken [-> [Htext Hnone]]].
  destruct (nth_error text i) as [c|] eqn:Hc.
  - rewrite (charAt_unit text i c Hc) in Hsep |- *.
    exists (c :: taken). rewrite <- app_assoc. split; [reflexivity|].
    split.
    + rewrite (skipn_at text i c Hc). simpl length. rewrite firstn_cons.
      now rewrite Htext.
    + unfold no_separator in *.
      change (existsb (N.eqb c) separators = false) in Hsep.
      cbn [forallb]. now rewrite Hsep, Hnone.
  - rewrite (charAt_outside text i Hc), app_nil_r.
    exists taken. repeat split; [|assumption].
    apply nth_error_None in Hc.
    rewrite skipn_all2 in Htext |- * by lia.
    now rewrite firstn_nil in Htext |- *.
Qed.

(** X15. The value of a hashtag the matcher returns is the text of the input
    right after the hash sign at the position, and holds none of the
    separator characters (so no space and no second hash sign). *)
Theorem hashtag_value_is_text fuel ctx value ctx' :
  matcher fuel ctx = Some (Ok (HASHTAG value), ctx') ->
  0 <= pos ctx
  /\ starts_with_at (input ctx) (Z.to_nat (pos ctx)) (CharCode_hash :: value)
     = true
  /\ no_separator value = true.
Proof.
  unfold hashtagMatcher.
  destruct (isAllowedAsBackChar ctx); [|discriminate]. simpl.
  destruct (charCodeAt (input ctx) (pos ctx)) as [c|] eqn:Hc; [|discriminate].
  destruct (N.eqb_spec c CharCode_hash) as [->|]; [|discriminate]. simpl.
  unfold charCodeAt in Hc.
  destruct (Z.leb_spec 0 (pos ctx)) as [Hpos|]; [|discriminate].
  destruct (Z.ltb_spec (pos ctx) (jslength (input ctx))) as [Hin|];
    [|discriminate].
  simpl in Hc.
  destruct ctx as [text p]. simpl in *.
  unfold advance. simpl.
  replace (p + 1) with (Z.of_nat (S (Z.to_nat p))) by lia.
  destruct (scan _ _ _) as [[scanned ctx1]|] eqn:Hscan; [|discriminate].
  apply scan_value_text in Hscan as [taken [-> [Htext Hnone]]]. simpl.
  destruct (_ || _); [discriminate|].
  intros H. injection H as <- _.
  split; [assumption|]. split; [|assumption].
  unfold starts_with_at. apply andb_true_iff. split.
  - apply Nat.leb_le. unfold jslength in Hin. lia.
  - rewrite (skipn_at text (Z.to_nat p) CharCode_hash Hc). cbn [is_prefix].
    rewrite N.eqb_refl. cbn [andb].
    rewrite is_prefix_firstn, Htext. now apply jseqb_eq.
Qed.

(** The end of input is recognised. *)
Hypothesis eof_at_end :
  forall ctx, jslength (input ctx) <= pos ctx -> eof ctx = true.

(** X16. The matcher returns: with one round of fuel for each code unit from the
    position on, and one more, it gives a result. *)
Theorem hashtagMatcher_returns fuel ctx :
  (Z.to_nat (jslength (input ctx) - pos ctx) < fuel)%nat ->
  exists r, matcher fuel ctx = Some r.
Proof.
  intros Hfuel. unfold hashtagMatcher.
  destruct (isAllowedAsBackChar ctx); simpl; [|eauto].
  destruct (charCodeAt (input ctx) (pos ctx)) as [c|]; [|eauto].
  destruct (N.eqb c CharCode_hash); simpl; [|eauto].
  destruct (HashtagFacts.scan_value_returns match_LfMatcher eof
              eof_at_end lf_fail_keeps fuel (advance ctx) [])
    as [[value ctx1] ->].
  - simpl. lia.
  - destruct (_ || _); eauto.
Qed.

End Matcher.

Lemma lf_matcher_fail_keeps ctx ctx' :
  lf_matcher ctx = (false, ctx') -> ctx' = ctx.
Proof.
  unfold lf_matcher.
  destruct (charCodeAt (input ctx) (pos ctx)) as [c|].
  - destruct (N.eqb_spec c 10) as [->|Hne].
    + discriminate.
    + destruct c as [|[c|c|]]; try (intros H; now injection H as <-).
      repeat (destruct c as [c|c|]; try (intros H; now injection H as <-)).
      discriminate.
  - intros H. now injection H as <-.
Qed.

Lemma at_end_recognised ctx :
  jslength (input ctx) <= pos ctx -> at_end ctx = true.
Proof. intros H. unfold at_end. now apply Z.leb_le. Qed.

Lemma hashtag_value_is_text_witness :
  0 <= pos (mkContext (js "a #tag, b") 2)
  /\ starts_with_at (js "a #tag, b") (Z.to_nat 2) (35%N :: js "tag") = true
  /\ no_separator (js "tag") = true.
Proof.
  apply (hashtag_value_is_text any_back_char lf_matcher at_end 35%N
           lf_matcher_fail_keeps 9 (mkContext (js "a #tag, b") 2)
           (js "tag") (mkContext (js "a #tag, b") 6)).
  reflexivity.
Defined.

Lemma hashtagMatcher_returns_witness :
  exists r, run_hashtag 9 (js "#abc def") 0 = Some r.
Proof.
  apply (hashtagMatcher_returns any_back_char lf_matcher at_end 35%N
           lf_matcher_fail_keeps at_end_recognised 9
           (mkContext (js "#abc def") 0)).
  vm_compute. lia.
Defined.

End HashtagLaws.

(** ** More on the link rule *)

Module LinkLaws.
Import Link Notions.

Section Rule.
Variable MfmInline : Type.
Variable sv : Services MfmInline.

(** X17. A link the rule returns has at least one node in its label, was opened
    by a bracket, and is silent exactly when the rule started at a question
    mark. *)
Theorem link_has_label fuel ctx silent url label ctx' :
  linkParser sv fuel ctx = Some (Ok (LINK silent url label), ctx') ->
  (1 <= length label)%nat
  /\ reaches_label sv ctx = true
  /\ silent = fst (ctx_char sv (question (CharCode sv)) ctx).
Proof.
  unfold linkParser, reaches_label.
  destruct (ctx_char sv (question (CharCode sv)) ctx) as [silent0 ctx1].
  simpl.
  destruct (ctx_char sv (openBracket (CharCode sv)) ctx1) as [[|] ctx2];
    simpl; [|discriminate].
  destruct (label_loop sv fuel (set_inLink true ctx2) [])
    as [[label0 ctx4]|]; [|discriminate].
  destruct (Z.ltb_spec (Z.of_nat (length label0)) 1) as [|Hlen];
    [discriminate|].
  destruct (ctx_str sv (js "](") (set_inLink false ctx4)) as [[|] ctx6];
    simpl; [|discriminate].
  destruct (ctx_choice_url sv ctx6) as [[url0|] ctx7]; [|discriminate].
  destruct (ctx_char sv (closeParen (CharCode sv)) ctx7) as [[|] ctx8];
    simpl; [|discriminate].
  intros H. injection H as <- _ <- _. repeat split. lia.
Qed.

Hypothesis inline_moves_on : link_inline_moves_on sv.

Lemma label_loop_returns :
  forall k ctx label,
    (Z.to_nat (jslength (input ctx) - pos ctx) <= k)%nat ->
    exists r, forall fuel,
      (k < fuel)%nat -> label_loop sv fuel ctx label = Some r.
Proof.
  intros k. induction k as [|k IH]; intros ctx label Hk.
  - destruct (ctx_matchChar sv (closeBracket (CharCode sv)) ctx) eqn:Hm.
    { exists (label, ctx). intros [|fuel] Hf; [lia|]. simpl. now rewrite Hm. }
    destruct (ctx_parser_inline sv ctx) as [[node|] ctx1] eqn:Hp.
    { apply inline_moves_on in Hp. lia. }
    exists (label, ctx1). intros [|fuel] Hf; [lia|]. simpl.
    now rewrite Hm, Hp.
  - destruct (ctx_matchChar sv (closeBracket (CharCode sv)) ctx) eqn:Hm.
    { exists (label, ctx). intros [|fuel] Hf; [lia|]. simpl. now rewrite Hm. }
    destruct (ctx_parser_inline sv ctx) as [[node|] ctx1] eqn:Hp.
    + pose proof (inline_moves_on _ _ _ Hp) as [Hin Hpos].
      destruct (IH ctx1 (pushNode sv node label)) as [r Hr].
      { rewrite Hin. lia. }
      exists r. intros [|fuel] Hf; [lia|]. simpl. rewrite Hm, Hp.
      apply Hr. lia.
    + exists (label, ctx1). intros [|fuel] Hf; [lia|]. simpl.
      now rewrite Hm, Hp.
Qed.

(** X18. The link rule returns when the inline parser moves on at each success:
    from some amount of fuel on it gives one and the same result. *)
Theorem linkParser_returns ctx :
  exists f r, forall fuel, (f <= fuel)%nat -> linkParser sv fuel ctx = Some r.
Proof.
  unfold linkParser.
  destruct (ctx_char sv (question (CharCode sv)) ctx) as [silent ctx1].
  destruct (ctx_char sv (openBracket (CharCode sv)) ctx1) as [[|] ctx2];
    simpl.
  2:{ exists 0%nat. eexists. intros fuel _. reflexivity. }
  set (k := Z.to_nat (jslength (input (set_inLink true ctx2))
                      - pos (set_inLink true ctx2))).
  destruct (label_loop_returns k (set_inLink true ctx2) [] (le_n _))
    as [[label ctx4] Hloop].
  assert (Htail : exists r,
    (if Z.of_nat (length label) <? 1 then Some (Fail, set_inLink false ctx4)
     else
       let '(ok, ctx6) := ctx_str sv (js "](") (set_inLink false ctx4) in
       if negb ok then Some (Fail, ctx6)
       else
         match ctx_choice_url sv ctx6 with
         | (None, ctx7) => Some (Fail, ctx7)
         | (Some url, ctx7) =>
             let '(ok, ctx8) :=
               ctx_char sv (closeParen (CharCode sv)) ctx7 in
             if negb ok then Some (Fail, ctx8)
             else Some (Ok (LINK silent url label), ctx8)
         end) = Some r).
  { destruct (_ <? _); [eauto|].
    destruct (ctx_str sv _ _) as [[|] ctx6]; simpl; [|eauto].
    destruct (ctx_choice_url sv ctx6) as [[url|] ctx7]; [|eauto].
    destruct (ctx_char sv _ ctx7) as [[|] ctx8]; simpl; eauto. }
  destruct Htail as [r Hr].
  exists (S k), r. intros fuel Hf. rewrite Hloop by lia. exact Hr.
Qed.

End Rule.

Lemma cursor_inline_moves_on : link_inline_moves_on cursor_services.
Proof.
  intros ctx node ctx1. simpl. unfold one_unit, charCodeAt.
  destruct (Z.leb_spec 0 (pos ctx)) as [Hlo|]; simpl; [|discriminate].
  destruct (Z.ltb_spec (pos ctx) (jslength (input ctx))) as [Hhi|]; simpl;
    [|discriminate].
  destruct (nth_error (input ctx) (Z.to_nat (pos ctx))) as [c|];
    [|discriminate].
  destruct (N.eqb c 93); [discriminate|].
  intros Hrun. injection Hrun as _ <-. simpl. split; [reflexivity | lia].
Qed.

Lemma link_has_label_witness :
  (1 <= length (js "ab"))%nat
  /\ reaches_label cursor_services (mkContext (js "?[ab](u)") 0 false) = true
  /\ true
     = fst (ctx_char cursor_services (question (CharCode cursor_services))
              (mkContext (js "?[ab](u)") 0 false)).
Proof.
  apply (link_has_label N cursor_services 10
           (mkContext (js "?[ab](u)") 0 false) true (js "u") (js "ab")
           (mkContext (js "?[ab](u)") 8 false)).
  reflexivity.
Defined.

Lemma linkParser_returns_witness :
  exists f r, forall fuel,
    (f <= fuel)%nat ->
    linkParser cursor_services fuel (mkContext (js "[ab](u)") 0 false)
    = Some r.
Proof.
  apply (linkParser_returns N cursor_services cursor_inline_moves_on).
Defined.

End LinkLaws.

(** ** The small tag rule *)

Module SmallFacts.
Import Small.

Section Rule.
Variable MfmInline : Type.
Variable sv : Services MfmInline.

(** X19. A small node the rule returns has at least one child, and both the
    opening tag at the start and the closing tag after the children were
    matched: without the closing tag the rule fails. *)
Theorem small_has_children fuel ctx children ctx' :
  smallTagParser sv fuel ctx = Some (Ok (SMALL children), ctx') ->
  (1 <= length children)%nat
  /\ fst (ctx_str sv (js "<small>") ctx) = true
  /\ exists ctx2,
       children_loop sv fuel (snd (ctx_str sv (js "<small>") ctx)) []
       = Some (children, ctx2)
       /\ ctx_str sv (js "</small>") ctx2 = (true, ctx').
Proof.
  unfold smallTagParser.
  destruct (ctx_str sv (js "<small>") ctx) as [[|] ctx1]; simpl;
    [|discriminate].
  destruct (children_loop sv fuel ctx1 []) as [[children0 ctx2]|];
    [|discriminate].
  destruct (Z.ltb_spec (Z.of_nat (length children0)) 1) as [|Hlen];
    [discriminate|].
  destruct (ctx_str sv (js "</small>") ctx2) as [[|] ctx3] eqn:Hclose;
    simpl; [|discriminate].
  intros H. injection H as <- <-.
  split; [lia|]. split; [reflexivity|]. now exists ctx2.
Qed.

Hypothesis moves_on : inline_moves_on sv.

Lemma children_loop_returns :
  forall k ctx children,
    (Z.to_nat (jslength (input ctx) - pos ctx) <= k)%nat ->
    exists r, forall fuel,
      (k < fuel)%nat -> children_loop sv fuel ctx children = Some r.
Proof.
  intros k. induction k as [|k IH]; intros ctx children Hk.
  - destruct (ctx_matchStr sv (js "</small>") ctx) eqn:Hm.
    { exists (children, ctx). intros [|fuel] Hf; [lia|]. simpl.
      now rewrite Hm. }
    destruct (ctx_parser_inline sv ctx) as [[node|] ctx1] eqn:Hp.
    { apply moves_on in Hp. lia. }
    exists (children, ctx1). intros [|fuel] Hf; [lia|]. simpl.
    now rewrite Hm, Hp.
  - destruct (ctx_matchStr sv (js "</small>") ctx) eqn:Hm.
    { exists (children, ctx). intros [|fuel] Hf; [lia|]. simpl.
      now rewrite Hm. }
    destruct (ctx_parser_inline sv ctx) as [[node|] ctx1] eqn:Hp.
    + pose proof (moves_on _ _ _ Hp) as [Hin Hpos].
      destruct (IH ctx1 (pushNode sv node children)) as [r Hr].
      { rewrite Hin. lia. }
      exists r. intros [|fuel] Hf; [lia|]. simpl. rewrite Hm, Hp.
      apply Hr. lia.
    + exists (children, ctx1). intros [|fuel] Hf; [lia|]. simpl.
      now rewrite Hm, Hp.
Qed.

(** X20. The small tag rule returns when the inline parser moves on at each
    success: from some amount of fuel on it gives one and the same
    result. *)
Theorem smallTagParser_returns ctx :
  exists f r, forall fuel,
    (f <= fuel)%nat -> smallTagParser sv fuel ctx = Some r.
Proof.
  unfold smallTagParser.
  destruct (ctx_str sv (js "<small>") ctx) as [[|] ctx1]; simpl.
  2:{ exists 0%nat. eexists. intros fuel _. reflexivity. }
  set (k := Z.to_nat (jslength (input ctx1) - pos ctx1)).
  destruct (children_loop_returns k ctx1 [] (le_n _))
    as [[children ctx2] Hloop].
  assert (Htail : exists r,
    (if Z.of_nat (length children) <? 1 then Some (Fail, ctx2)
     else
       let '(ok, ctx3) := ctx_str sv (js "</small>") ctx2 in
       if negb ok then Some (Fail, ctx3)
       else Some (Ok (SMALL children), ctx3)) = Some r).
  { destruct (_ <? _); [eauto|].
    destruct (ctx_str sv _ _) as [[|] ctx3]; simpl; eauto. }
  destruct Htail as [r Hr].
  exists (S k), r. intros fuel Hf. rewrite Hloop by lia. exact Hr.
Qed.

End Rule.

Lemma cursor_moves_on : inline_moves_on cursor_services.
Proof.
  intros ctx node ctx1. simpl. unfold one_unit, charCodeAt.
  destruct (Z.leb_spec 0 (pos ctx)) as [Hlo|]; simpl; [|discriminate].
  destruct (Z.ltb_spec (pos ctx) (jslength (input ctx))) as [Hhi|]; simpl;
    [|discriminate].
  destruct (nth_error (input ctx) (Z.to_nat (pos ctx))) as [c|];
    [|discriminate].
  destruct (N.eqb c 60); [discriminate|].
  intros Hrun. injection Hrun as _ <-. simpl. split; [reflexivity | lia].
Qed.

Example small_parsed :
  smallTagParser cursor_services 10 (mkContext (js "<small>ab</small>") 0)
  = Some (Ok (SMALL (js "ab")), mkContext (js "<small>ab</small>") 17).
Proof. reflexivity. Qed.

Example small_unterminated :
  smallTagParser cursor_services 10 (mkContext (js "<small>text") 0)
  = Some (Fail, mkContext (js "<small>text") 11).
Proof. reflexivity. Qed.

Example small_empty :
  smallTagParser cursor_services 10 (mkContext (js "<small></small>") 0)
  = Some (Fail, mkContext (js "<small></small>") 7).
Proof. reflexivity. Qed.

Lemma small_has_children_witness :
  (1 <= length (js "ab"))%nat
  /\ fst (ctx_str cursor_services (js "<small>")
            (mkContext (js "<small>ab</small>") 0)) = true
  /\ exists ctx2,
       children_loop cursor_services 10
         (snd (ctx_str cursor_services (js "<small>")
                 (mkContext (js "<small>ab</small>") 0))) []
       = Some (js "ab", ctx2)
       /\ ctx_str cursor_services (js "</small>") ctx2
          = (true, mkContext (js "<small>ab</small>") 17).
Proof.
  apply (small_has_children N cursor_services 10
           (mkContext (js "<small>ab</small>") 0)).
  reflexivity.
Defined.

Lemma smallTagParser_returns_witness :
  exists f r, forall fuel,
    (f <= fuel)%nat ->
    smallTagParser cursor_services fuel (mkContext (js "<small>text") 0)
    = Some r.
Proof.
  apply (smallTagParser_returns N cursor_services cursor_moves_on).
Defined.

End SmallFacts.

(** ** [String.prototype.trim] *)

Module JsTrimFacts.
Import JsTrim.

Lemma trimStart_split (s : jsstring) :
  exists before,
    s = before ++ trimStart s /\ forallb is_white_space before = true.
Proof.
  induction s as [|c s [before [Hs Hws]]]; simpl.
  - now exists [].
  - destruct (is_white_space c) eqn:Hc.
    + exists (c :: before). simpl. rewrite Hc, Hws. split; [|reflexivity].
      now rewrite <- Hs.
    + now exists [].
Qed.

Lemma trimEnd_split (s : jsstring) :
  exists after,
    s = trimEnd s ++ after /\ forallb is_white_space after = true.
Proof.
  induction s as [|c s [after [Hs Hws]]]; simpl.
  - now exists [].
  - destruct (trimEnd s) as [|k kept] eqn:Hk.
    + destruct (is_white_space c) eqn:Hc.
      * exists (c :: after). simpl in *. rewrite Hc, Hws.
        split; [|reflexivity]. now rewrite <- Hs.
      * exists after. simpl in *. split; [|assumption]. now rewrite <- Hs.
    + exists after. split; [|assumption]. simpl in *. now rewrite <- Hs.
Qed.

Lemma trimEnd_keeps_head c (s : jsstring) :
  is_white_space c = false -> trimEnd (c :: s) = c :: trimEnd s.
Proof.
  intros Hc. simpl. rewrite Hc. now destruct (trimEnd s).
Qed.

Lemma trimEnd_idempotent (s : jsstring) : trimEnd (trimEnd s) = trimEnd s.
Proof.
  induction s as [|c s IH]; [reflexivity|]. simpl.
  destruct (trimEnd s) as [|k kept] eqn:Hk.
  - destruct (is_white_space c) eqn:Hc; simpl; [reflexivity|].
    now rewrite Hc.
  - change (trimEnd (c :: k :: kept)) with
      (match trimEnd (k :: kept) with
       | [] => if is_white_space c then [] else [c]
       | kept' => c :: kept'
       end).
    now rewrite IH.
Qed.

Lemma trimStart_fixed (s : jsstring) :
  trimStart (trimStart s) = trimStart s.
Proof.
  induction s as [|c s IH]; [reflexivity|]. simpl.
  destruct (is_white_space c) eqn:Hc; [exact IH|]. simpl. now rewrite Hc.
Qed.

Lemma trimStart_after_trimEnd (s : jsstring) :
  trimStart s = s -> trimStart (trimEnd s) = trimEnd s.
Proof.
  destruct s as [|c s]; [reflexivity|]. simpl.
  destruct (is_white_space c) eqn:Hc.
  - intros H. destruct (trimStart_split s) as [before [Hs _]].
    rewrite H in Hs. apply (f_equal (@length _)) in Hs.
    rewrite length_app in Hs. simpl in Hs. lia.
  - intros _. destruct (trimEnd s); simpl; now rewrite Hc.
Qed.

(** [trim] takes white space off both ends and nothing else, and what it
    returns has no white space at either end. *)
Lemma trim_spec (s : jsstring) :
  (exists before after,
      s = before ++ trim s ++ after
      /\ forallb is_white_space before = true
      /\ forallb is_white_space after = true)
  /\ trimStart (trim s) = trim s
  /\ trimEnd (trim s) = trim s.
Proof.
  unfold trim. split; [|split].
  - destruct (trimStart_split s) as [before [Hb Hbw]].
    destruct (trimEnd_split (trimStart s)) as [after [Ha Haw]].
    exists before, after. split; [|split; assumption].
    now rewrite <- Ha.
  - apply trimStart_after_trimEnd, trimStart_fixed.
  - apply trimEnd_idempotent.
Qed.

End JsTrimFacts.

(** ** The code block rule *)

Module CodeBlockFacts.
Import JsTrim CodeBlock JsTrimFacts.

Section Rule.
Variable sv : Services.

(** X21. A code block the rule returns has an empty code, and its language is
    the text the rule scanned after the opening fence with the white space
    taken off both ends, or [null] when nothing is left of it: never the
    empty string. *)
Theorem code_block_language fuel ctx code lang ctx' :
  codeBlockParser sv fuel ctx = Some (Ok (CODE_BLOCK code lang), ctx') ->
  code = []
  /\ (forall l, lang = Some l ->
                l <> [] /\ trimStart l = l /\ trimEnd l = l)
  /\ exists scanned ctx2 before after,
       lang_loop sv fuel (snd (ctx_str sv (js "```") ctx)) []
       = Some (scanned, ctx2)
       /\ scanned
          = before ++ match lang with Some l => l | None => [] end ++ after
       /\ forallb is_white_space before = true
       /\ forallb is_white_space after = true.
Proof.
  unfold codeBlockParser.
  destruct (ctx_str sv (js "```") ctx) as [[|] ctx1]; simpl; [|discriminate].
  destruct (lang_loop sv fuel ctx1 []) as [[scanned ctx2]|]; [|discriminate].
  destruct (ctx_regex sv line_break ctx2) as [[|] ctx3]; simpl;
    [|discriminate].
  destruct (ctx_regex sv line_break ctx3) as [[|] ctx4]; simpl;
    [|discriminate].
  destruct (ctx_str sv (js "```") ctx4) as [[|] ctx5]; simpl; [|discriminate].
  intros H. injection H as <- <- _.
  destruct (trim_spec scanned) as [[before [after [Hs [Hb Ha]]]] [Hts Hte]].
  split; [reflexivity|]. split.
  - intros l. destruct (Z.ltb_spec 0 (jslength (trim scanned))) as [Hlen|];
      [|discriminate].
    intros H. injection H as <-. repeat split; try assumption.
    intros Hnil. rewrite Hnil in Hlen. unfold jslength in Hlen.
    simpl in Hlen. lia.
  - exists scanned, ctx2, before, after.
    split; [reflexivity|]. split; [|split; assumption].
    destruct (Z.ltb_spec 0 (jslength (trim scanned))) as [|Hlen];
      [exact Hs|].
    assert (Hnil : trim scanned = []).
    { destruct (trim scanned); [reflexivity|].
      unfold jslength in Hlen. simpl in Hlen. lia. }
    now rewrite Hnil in Hs.
Qed.

Hypothesis moves_on : anyChar_moves_on sv.

Lemma lang_loop_returns :
  forall k ctx lang,
    (Z.to_nat (jslength (input ctx) - pos ctx) <= k)%nat ->
    exists r, forall fuel,
      (k < fuel)%nat -> lang_loop sv fuel ctx lang = Some r.
Proof.
  intros k. induction k as [|k IH]; intros ctx lang Hk.
  - destruct (ctx_matchRegex sv line_break ctx) eqn:Hm.
    { exists (lang, ctx). intros [|fuel] Hf; [lia|]. simpl. now rewrite Hm. }
    destruct (ctx_anyChar sv ctx) as [[result|] ctx1] eqn:Hp.
    { apply moves_on in Hp. lia. }
    exists (lang, ctx1). intros [|fuel] Hf; [lia|]. simpl.
    now rewrite Hm, Hp.
  - destruct (ctx_matchRegex sv line_break ctx) eqn:Hm.
    { exists (lang, ctx). intros [|fuel] Hf; [lia|]. simpl. now rewrite Hm. }
    destruct (ctx_anyChar sv ctx) as [[result|] ctx1] eqn:Hp.
    + pose proof (moves_on _ _ _ Hp) as [Hin Hpos].
      destruct (IH ctx1 (lang ++ result)) as [r Hr].
      { rewrite Hin. lia. }
      exists r. intros [|fuel] Hf; [lia|]. simpl. rewrite Hm, Hp.
      apply Hr. lia.
    + exists (lang, ctx1). intros [|fuel] Hf; [lia|]. simpl.
      now rewrite Hm, Hp.
Qed.

(** X22. The code block rule returns when [anyChar] moves on at each success:
    from some amount of fuel on it gives one and the same result. *)
Theorem codeBlockParser_returns ctx :
  exists f r, forall fuel,
    (f <= fuel)%nat -> codeBlockParser sv fuel ctx = Some r.
Proof.
  unfold codeBlockParser.
  destruct (ctx_str sv (js "```") ctx) as [[|] ctx1]; simpl.
  2:{ exists 0%nat. eexists. intros fuel _. reflexivity. }
  set (k := Z.to_nat (jslength (input ctx1) - pos ctx1)).
  destruct (lang_loop_returns k ctx1 [] (le_n _)) as [[lang ctx2] Hloop].
  assert (Htail : exists r,
    (let '(ok, ctx3) := ctx_regex sv line_break ctx2 in
     if negb ok then Some (Fail, ctx3)
     else
       let '(ok, ctx4) := ctx_regex sv line_break ctx3 in
       if negb ok then Some (Fail, ctx4)
       else
         let '(ok, ctx5) := ctx_str sv (js "```") ctx4 in
         if negb ok then Some (Fail, ctx5)
         else
           let lang := trim lang in
           Some (Ok (CODE_BLOCK []
                       (if 0 <? jslength lang then Some lang else None)),
                 ctx5)) = Some r).
  { destruct (ctx_regex sv _ ctx2) as [[|] ctx3]; simpl; [|eauto].
    destruct (ctx_regex sv _ ctx3) as [[|] ctx4]; simpl; [|eauto].
    destruct (ctx_str sv _ ctx4) as [[|] ctx5]; simpl; eauto. }
  destruct Htail as [r Hr].
  exists (S k), r. intros fuel Hf. rewrite Hloop by lia. exact Hr.
Qed.

End Rule.

Lemma cursor_anyChar_moves_on : anyChar_moves_on cursor_services.
Proof.
  intros ctx result ctx1. simpl. unfold cursor_anyChar, charAt.
  destruct (Z.leb_spec 0 (pos ctx)) as [Hlo|]; simpl.
  2:{ discriminate. }
  destruct (Z.ltb_spec (pos ctx) (jslength (input ctx))) as [Hhi|]; simpl.
  2:{ discriminate. }
  destruct (nth_error (input ctx) (Z.to_nat (pos ctx))) as [c|];
    [|discriminate].
  intros Hrun. injection Hrun as _ <-. simpl. split; [reflexivity | lia].
Qed.

Example code_block_parsed :
  codeBlockParser cursor_services 10
    (mkContext (js "``` js " ++ [10%N; 10%N] ++ js "```") 0)
  = Some (Ok (CODE_BLOCK [] (Some (js "js"))),
          mkContext (js "``` js " ++ [10%N; 10%N] ++ js "```") 12).
Proof. reflexivity. Qed.

Example code_block_without_language :
  codeBlockParser cursor_services 10
    (mkContext (js "```  " ++ [13%N; 10%N; 10%N] ++ js "```") 0)
  = Some (Ok (CODE_BLOCK [] None),
          mkContext (js "```  " ++ [13%N; 10%N; 10%N] ++ js "```") 11).
Proof. reflexivity. Qed.

Example code_block_with_code_fails :
  codeBlockParser cursor_services 10
    (mkContext (js "```js" ++ [10%N] ++ js "x" ++ [10%N] ++ js "```") 0)
  = Some (Fail,
          mkContext (js "```js" ++ [10%N] ++ js "x" ++ [10%N] ++ js "```") 6).
Proof. reflexivity. Qed.

Lemma code_block_language_witness :
  [] = ([] : jsstring)
  /\ (forall l, Some (js "js") = Some l ->
                l <> [] /\ trimStart l = l /\ trimEnd l = l)
  /\ exists scanned ctx2 before after,
       lang_loop cursor_services 10
         (snd (ctx_str cursor_services (js "```")
                 (mkContext (js "``` js " ++ [10%N; 10%N] ++ js "```") 0)))
         []
       = Some (scanned, ctx2)
       /\ scanned = before ++ js "js" ++ after
       /\ forallb is_white_space before = true
       /\ forallb is_white_space after = true.
Proof.
  apply (code_block_language cursor_services 10
           (mkContext (js "``` js " ++ [10%N; 10%N] ++ js "```") 0)
           [] (Some (js "js"))
           (mkContext (js "``` js " ++ [10%N; 10%N] ++ js "```") 12)).
  reflexivity.
Defined.

Lemma codeBlockParser_returns_witness :
  exists f r, forall fuel,
    (f <= fuel)%nat ->
    codeBlockParser cursor_services fuel
      (mkContext (js "```js" ++ [10%N; 10%N] ++ js "```") 0)
    = Some r.
Proof.
  apply (codeBlockParser_returns cursor_services cursor_anyChar_moves_on).
Defined.

End CodeBlockFacts.
